(** * The hook interpreter of the gateway: [gateway/hooks/runstate.go]

    A shallow embedding of the run-state interpreter ([runState.Run] and the
    functions it calls) and the properties of it that the specification
    states.

    - Go's [interface{}] is the type [iface]; a pair of results
      [(interface{}, error)] is a Rocq pair with [option error], [None] being
      the nil error.
    - The calls the interpreter makes on objects whose code lives in other
      files of the package (the session's [HooksContext], its counters and
      barriers) and on the captured gRPC handler are the constructors of
      [call]; the interpreter is a program over these calls ([Prog]), so the
      text of every function follows the Go text line by line.
    - Two semantics interpret the calls: [exec] runs one run-state against a
      session, the outcome of each blocking call being supplied by the
      environment; [Pool.step] interleaves several run-states of one session.
    - Sub-messages of a hook are taken to be present: a nil [*HookAction],
      [*HookCondition] or [*ValueRef] makes the Go code panic on the field
      access and is not a value of the types below.  A one-of that is not set
      is the constructor [..._unset].
    - [log.Printf] calls are left out. *)

From Stdlib Require Import ZArith List String Ascii Bool Lia.
From stdpp Require Import base option list strings gmap.

Set Warnings "-register-all".

Local Open Scope string_scope.
Local Open Scope list_scope.
Local Open Scope Z_scope.

(** ** Go values *)

(** [anypb.Any]: a type URL and the serialized message (Go strings and byte
    slices are sequences of octets, as Rocq's [string]). *)
Record Any : Type := mkAny { TypeUrl : string; AnyValue : string }.

(** A [float64]: sign, mantissa and binary exponent of a finite number
    (its value is [(-1)^sign * mant * 2^exp]), an infinity, or a NaN. *)
Inductive float64 : Type :=
| F64_finite (sign : bool) (mant : Z) (exp : Z)
| F64_inf (sign : bool)
| F64_nan.

(** The dynamic values that travel as [interface{}] through the interpreter:
    the nil interface, what [json.Unmarshal] stores into an [interface{}]
    (bool, float64, string, []interface{}, map[string]interface{}), the
    [int64] of a counter, a [*anypb.Any] (the pointer itself may be nil: an
    interface holding a nil pointer is not the nil interface) and any other
    message, which the interpreter never inspects. *)
Inductive iface : Type :=
| go_nil
| go_bool (b : bool)
| go_int64 (n : Z)
| go_float64 (f : float64)
| go_string (s : string)
| go_slice (l : list iface)
| go_map (m : list (string * iface))
| go_AnyPtr (p : option Any)
| go_message (name : string) (body : string).

(** [x == nil] on an interface value. *)
Definition is_nil (x : iface) : bool :=
  match x with go_nil => true | _ => false end.

(** ** gRPC status (package [google.golang.org/grpc/status])

    The part of the library used by [runAction_ReturnError], after the
    library's documentation: [New] returns a status with the code and the
    message; [WithDetails] "returns a new status with the provided details
    messages appended to the status; if any errors are encountered, it returns
    nil and the first error encountered", and refuses a status whose code is
    OK; [Code] of a nil status is OK; [Err] "returns nil if the code is OK".
    A [*Status] is an [option Status], [None] being the nil pointer. *)
Record Status : Type := mkStatus {
  StatusCode : Z;             (* codes.Code, a uint32 *)
  StatusMessage : string;
  StatusDetails : list Any
}.

Inductive error : Type :=
| errors_New (text : string)
| status_Error (s : Status)
| context_Canceled
| context_DeadlineExceeded
| library_error (pkg : string) (text : string).

(** [err == nil] on an error value. *)
Definition is_nil_error (err : option error) : bool :=
  match err with None => true | Some _ => false end.

Module codes.

Definition OK : Z := 0.
Definition NotFound : Z := 5.
Definition ResourceExhausted : Z := 8.

(** The conversion [codes.Code(c)] of an [int32] to the [uint32] code. *)
Definition Code (c : Z) : Z := c mod 2 ^ 32.

End codes.

Module status.
Section WithMarshal.

(** [anypb.New]: packing a detail message into an [Any] marshals it, which
    can fail; the library's marshaller is a parameter. *)
Variable anypb_New : Any -> Any + error.

Definition New (c : Z) (msg : string) : option Status :=
  Some (mkStatus c msg []).

Definition Code (s : option Status) : Z :=
  match s with
  | None => codes.OK
  | Some st => StatusCode st
  end.

Definition WithDetails (s : option Status) (detail : Any)
  : option Status * option error :=
  if Code s =? codes.OK then
    (None, Some (errors_New "no error details for status with code OK"))
  else
    match s, anypb_New detail with
    | Some st, inl packed =>
        (Some (mkStatus (StatusCode st) (StatusMessage st)
                        (StatusDetails st ++ [packed])), None)
    | Some st, inr err => (None, Some err)
    | None, _ => (None, None) (* not reached: the code of nil is OK *)
    end.

Definition Err (s : option Status) : option error :=
  if Code s =? codes.OK then None
  else match s with
       | Some st => Some (status_Error st)
       | None => None (* not reached: the code of nil is OK *)
       end.

End WithMarshal.
End status.

(** ** The hook messages (package [internal_hooks_v1]) *)

(** A protobuf enum is an [int32]: besides the five named operators any other
    number can arrive. *)
Inductive ComparisonOperator : Type :=
| ComparisonOperator_EQUAL
| ComparisonOperator_GREATER_THAN
| ComparisonOperator_GREATER_THAN_OR_EQUAL
| ComparisonOperator_LESS_THAN
| ComparisonOperator_LESS_THAN_OR_EQUAL
| ComparisonOperator_other (n : Z).

Inductive ValueRef : Type :=
| ValueRef_CounterValue (CounterValue : string)
| ValueRef_RequestField (RequestField : string)
| ValueRef_JsonValue (JsonValue : string)
| ValueRef_unset.

Record HookCondition : Type := mkCond {
  Left : ValueRef;
  Op : ComparisonOperator;
  Right : ValueRef
}.

Inductive HookAction : Type :=
| HookAction_If (Cond : list HookCondition) (Match NoMatch : list HookAction)
| HookAction_Counter (CounterId : string) (Delta : Z)
| HookAction_WaitOnBarrier (BarrierId : string)
| HookAction_SignalBarrier (BarrierId : string) (SignalAll : bool)
| HookAction_SetResponse (Value : option Any)
| HookAction_ReturnError (Code : Z) (Message : string) (Details : list Any)
| HookAction_unset.

Record Hook : Type := mkHook { Actions : list HookAction }.

(** ** The calls of the interpreter *)

(** A [context.Context] is known by the invocation it belongs to. *)
Definition Context : Type := nat.

(** [grpc.UnaryHandler]. *)
Definition UnaryHandler : Type := Context -> iface -> iface * option error.

(** A [*Counter] or [*Barrier] is known by the key under which the session's
    registry holds the object. *)
Definition CounterRef : Type := string.
Definition BarrierRef : Type := string.

Inductive call : Type :=
| acquireRunLock (ctx : Context)
| releaseRunLock
| GetCounter (id : string)
| getCounterLocked (id : string)
| Counter_Get (c : CounterRef)
| Counter_Update (c : CounterRef) (delta : Z)
| GetBarrier (id : string)
| getBarrierLocked (id : string)
| Barrier_Wait (b : BarrierRef) (ctx : Context) (runID : string)
| Barrier_SignalAll (b : BarrierRef)
| Barrier_TrySignalAny (b : BarrierRef)
| Handler_call (h : UnaryHandler) (ctx : Context) (req : iface).

Definition result (c : call) : Type :=
  match c with
  | acquireRunLock _ => option error
  | releaseRunLock => unit
  | GetCounter _ | getCounterLocked _ => CounterRef
  | Counter_Get _ => Z
  | Counter_Update _ _ => unit
  | GetBarrier _ | getBarrierLocked _ => BarrierRef
  | Barrier_Wait _ _ _ => option error
  | Barrier_SignalAll _ | Barrier_TrySignalAny _ => unit
  | Handler_call _ _ _ => (iface * option error)%type
  end.

(** Programs over the calls: a finished computation, or a call and what is
    done with its result. *)
Inductive Prog (A : Type) : Type :=
| Ret (a : A)
| Do (c : call) (k : result c -> Prog A).
Arguments Ret {A} a.
Arguments Do {A} c k.

Fixpoint bind {A B : Type} (m : Prog A) (f : A -> Prog B) : Prog B :=
  match m with
  | Ret a => f a
  | Do c k => Do c (fun r => bind (k r) f)
  end.

Definition perform (c : call) : Prog (result c) := Do c Ret.

(** [Prog] is a monad; programs are written with stdpp's notations
    [x ← m; k] and [m ;; k]. *)
#[global] Instance Prog_ret : MRet Prog := @Ret.
#[global] Instance Prog_bind : MBind Prog := fun A B f m => bind m f.

(** ** The interpreter: [runstate.go] *)

(** [runState].  The back-reference [HooksContext] is the session the
    program is run against; it is the state of the two semantics below.  The
    field [Hook] is [RunHook] here, [Hook] being the type of its value. *)
Record runState : Type := mkRunState {
  ID : string;
  Handler : UnaryHandler;
  RunHook : Hook
}.

(** Functions of other packages that the interpreter calls:
    [encoding/json]'s decoder into an [interface{}], the comparator
    [govalcmp.Compare] and the marshaller behind [status.WithDetails]. *)
Class Libraries : Type := {
  json_Unmarshal : string -> iface + error;
  govalcmp_Compare : iface -> iface -> Z + error;
  anypb_New : Any -> Any + error
}.

Section Interpreter.

Context {L : Libraries}.

Definition compare (left : iface) (op : ComparisonOperator) (right : iface)
  : bool * option error :=
  match govalcmp_Compare left right with
  | inr err => (false, Some err)
  | inl delta =>
      match op with
      | ComparisonOperator_EQUAL => (delta =? 0, None)
      | ComparisonOperator_GREATER_THAN => (delta >? 0, None)
      | ComparisonOperator_GREATER_THAN_OR_EQUAL => (delta >=? 0, None)
      | ComparisonOperator_LESS_THAN => (delta <? 0, None)
      | ComparisonOperator_LESS_THAN_OR_EQUAL => (delta <=? 0, None)
      | ComparisonOperator_other _ =>
          (false, Some (errors_New "invalid comparison operator"))
      end
  end.

Definition resolveValueRef_CounterValue (ctx : Context) (req : iface)
    (CounterValue : string) : Prog (iface * option error) :=
  counter ← perform (GetCounter CounterValue);
  v ← perform (Counter_Get counter);
  Ret (go_int64 v, None).

Definition resolveValueRef_RequestField (ctx : Context) (req : iface)
    (RequestField : string) : Prog (iface * option error) :=
  Ret (go_nil, Some (errors_New "unimplemented request field query")).

Definition resolveValueRef_JsonValue (ctx : Context) (req : iface)
    (JsonValue : string) : Prog (iface * option error) :=
  match json_Unmarshal JsonValue with
  | inr err => Ret (go_nil, Some err)
  | inl val => Ret (val, None)
  end.

Definition resolveValueRef (ctx : Context) (req : iface) (ref : ValueRef)
  : Prog (iface * option error) :=
  match ref with
  | ValueRef_CounterValue id => resolveValueRef_CounterValue ctx req id
  | ValueRef_RequestField path => resolveValueRef_RequestField ctx req path
  | ValueRef_JsonValue text => resolveValueRef_JsonValue ctx req text
  | ValueRef_unset => Ret (go_nil, Some (errors_New "invalid value ref"))
  end.

Definition checkCondition (ctx : Context) (req : iface) (cond : HookCondition)
  : Prog (bool * option error) :=
  '(leftVal, err) ← resolveValueRef ctx req (Left cond);
  match err with
  | Some e => Ret (false, Some e)
  | None =>
      '(rightVal, err) ← resolveValueRef ctx req (Right cond);
      match err with
      | Some e => Ret (false, Some e)
      | None =>
          let '(ok, err) := compare leftVal (Op cond) rightVal in
          match err with
          | Some e => Ret (false, Some e)
          | None => Ret (ok, None)
          end
      end
  end.

Fixpoint checkConditions (ctx : Context) (req : iface)
    (conds : list HookCondition) : Prog (bool * option error) :=
  match conds with
  | [] => Ret (true, None)
  | cond :: rest =>
      '(ok, err) ← checkCondition ctx req cond;
      match err with
      | Some e => Ret (false, Some e)
      | None =>
          if negb ok then Ret (false, None)
          else checkConditions ctx req rest
      end
  end.

(** The loop of [runActions], with its variable [respOut], over the
    function that runs one action. *)
Section Loop.

Variable runAction : HookAction -> Prog (iface * option error).

Fixpoint runActions_loop (respOut : iface) (actions : list HookAction)
  : Prog (iface * option error) :=
  match actions with
  | [] => Ret (respOut, None)
  | action :: rest =>
      '(resp, err) ← runAction action;
      match err with
      | Some e => Ret (go_nil, Some e)
      | None =>
          runActions_loop (if is_nil resp then respOut else resp) rest
      end
  end.

End Loop.

(** [runAction_If], over the function that runs a list of actions. *)
Definition runAction_If_with
    (runActions : list HookAction -> Prog (iface * option error))
    (ctx : Context) (req : iface)
    (Cond : list HookCondition) (Match NoMatch : list HookAction)
  : Prog (iface * option error) :=
  '(ok, err) ← checkConditions ctx req Cond;
  match err with
  | Some e => Ret (go_nil, Some e)
  | None => if (ok : bool) then runActions Match else runActions NoMatch
  end.

Definition runAction_Counter (ctx : Context) (req : iface)
    (CounterId : string) (Delta : Z) : Prog (iface * option error) :=
  counter ← perform (getCounterLocked CounterId);
  perform (Counter_Update counter Delta) ;;
  Ret (go_nil, None).

Definition runAction_WaitOnBarrier (s : runState) (ctx : Context)
    (req : iface) (BarrierId : string) : Prog (iface * option error) :=
  barrier ← perform (getBarrierLocked BarrierId);
  perform releaseRunLock ;;
  perform (Barrier_Wait barrier ctx (ID s)) ;;
  err ← perform (acquireRunLock ctx);
  match err with
  | Some e => Ret (go_nil, Some e)
  | None => Ret (go_nil, None)
  end.

Definition runAction_SignalBarrier (ctx : Context) (req : iface)
    (BarrierId : string) (SignalAll : bool) : Prog (iface * option error) :=
  barrier ← perform (GetBarrier BarrierId);
  (if SignalAll then perform (Barrier_SignalAll barrier)
   else perform (Barrier_TrySignalAny barrier)) ;;
  Ret (go_nil, None).

Definition runAction_SetResponse (ctx : Context) (req : iface)
    (Value : option Any) : Prog (iface * option error) :=
  Ret (go_AnyPtr Value, None).

Definition runAction_ReturnError (ctx : Context) (req : iface)
    (Code : Z) (Message : string) (Details : list Any)
  : Prog (iface * option error) :=
  let st := status.New (codes.Code Code) Message in
  let st :=
    fold_left (fun st detail => fst (status.WithDetails anypb_New st detail))
              Details st in
  Ret (go_nil, status.Err st).

Fixpoint runAction (s : runState) (ctx : Context) (req : iface)
    (action : HookAction) {struct action} : Prog (iface * option error) :=
  match action with
  | HookAction_If c m n =>
      runAction_If_with (runActions_loop (runAction s ctx req) go_nil)
                        ctx req c m n
  | HookAction_Counter id delta => runAction_Counter ctx req id delta
  | HookAction_WaitOnBarrier id => runAction_WaitOnBarrier s ctx req id
  | HookAction_SignalBarrier id all => runAction_SignalBarrier ctx req id all
  | HookAction_SetResponse v => runAction_SetResponse ctx req v
  | HookAction_ReturnError c m d => runAction_ReturnError ctx req c m d
  | HookAction_unset => Ret (go_nil, Some (errors_New "invalid hook action type"))
  end.

Definition runActions (s : runState) (ctx : Context) (req : iface)
    (actions : list HookAction) : Prog (iface * option error) :=
  runActions_loop (runAction s ctx req) go_nil actions.

Definition runAction_If (s : runState) (ctx : Context) (req : iface)
    (Cond : list HookCondition) (Match NoMatch : list HookAction)
  : Prog (iface * option error) :=
  runAction_If_with (runActions s ctx req) ctx req Cond Match NoMatch.

Definition Run (s : runState) (ctx : Context) (req : iface)
  : Prog (iface * option error) :=
  err ← perform (acquireRunLock ctx);
  match err with
  | Some e => Ret (go_nil, Some e)
  | None =>
      '(resp, err) ← runActions s ctx req (Actions (RunHook s));
      perform releaseRunLock ;;
      if is_nil resp && is_nil_error err
      then perform (Handler_call (Handler s) ctx req)
      else Ret (resp, err)
  end.

End Interpreter.

(** ** The session: [HooksContext], its counters and barriers *)

(** Modelled from the spec: [HooksContext], whose code is in another file of
    the package.  It "owns a counter registry (id -> Counter), a barrier
    registry (id -> Barrier), a run-slot"; a counter is an [int64], a barrier
    "an ordered FIFO queue of waiters, each identified by the run-id of the
    waiting invocation"; the run-slot is "a counting-semaphore-of-one":
    [runLock] tells whether the slot is taken. *)
Record HooksContext : Type := mkHooksContext {
  counters : gmap string Z;
  barriers : gmap string (list string);
  runLock : bool
}.

(** The two's complement wrap-around of an [int64] sum. *)
Definition wrap64 (z : Z) : Z := (z + 2 ^ 63) mod 2 ^ 64 - 2 ^ 63.

Module Session.

(** Modelled from the spec: [GetCounter] and [getCounterLocked].  "Counter
    and barrier lookups never fail: missing id => lazily constructed default
    instance", and the "default value on first access is 0". *)
Definition lookupCounter (id : string) (hc : HooksContext) : HooksContext :=
  match counters hc !! id with
  | Some _ => hc
  | None => mkHooksContext (<[id := 0]> (counters hc)) (barriers hc) (runLock hc)
  end.

(** Modelled from the spec: [GetBarrier] and [getBarrierLocked], with the
    same lazy creation; a new barrier has no waiter. *)
Definition lookupBarrier (id : string) (hc : HooksContext) : HooksContext :=
  match barriers hc !! id with
  | Some _ => hc
  | None => mkHooksContext (counters hc) (<[id := []]> (barriers hc)) (runLock hc)
  end.

(** Modelled from the spec: [Counter.Get], the current integer. *)
Definition counterGet (c : CounterRef) (hc : HooksContext) : Z :=
  default 0 (counters hc !! c).

(** Modelled from the spec: [Counter.Update], which applies the signed
    delta to the [int64]. *)
Definition counterUpdate (c : CounterRef) (delta : Z) (hc : HooksContext)
  : HooksContext :=
  mkHooksContext (<[c := wrap64 (counterGet c hc + delta)]> (counters hc))
                 (barriers hc) (runLock hc).

Definition waiters (b : BarrierRef) (hc : HooksContext) : list string :=
  default [] (barriers hc !! b).

Definition setWaiters (b : BarrierRef) (q : list string) (hc : HooksContext)
  : HooksContext :=
  mkHooksContext (counters hc) (<[b := q]> (barriers hc)) (runLock hc).

(** Modelled from the spec: [Barrier.SignalAll] "releases every queued
    waiter and empties the queue". *)
Definition signalAll (b : BarrierRef) (hc : HooksContext) : HooksContext :=
  setWaiters b [] hc.

(** Modelled from the spec: [Barrier.TrySignalAny] "releases one waiter if
    any is queued, otherwise is a no-op"; it "always releases the oldest
    waiter". *)
Definition trySignalAny (b : BarrierRef) (hc : HooksContext) : HooksContext :=
  setWaiters b (tail (waiters b hc)) hc.

Definition setRunLock (held : bool) (hc : HooksContext) : HooksContext :=
  mkHooksContext (counters hc) (barriers hc) held.

(** Modelled from the spec: a successful [acquireRunLock] takes the slot. *)
Definition acquire (hc : HooksContext) : HooksContext := setRunLock true hc.

(** Modelled from the spec: [releaseRunLock] by the run-state that this
    session serves leaves the slot free; the release "is idempotent per
    invocation": releasing twice is releasing once. *)
Definition release (hc : HooksContext) : HooksContext := setRunLock false hc.

End Session.

(** ** One run-state against its session *)

(** The session and the outcomes the environment has in store for the
    blocking calls of the run-state ([acquireRunLock] and [Barrier.Wait], in
    the order they are made): [None] when the call returns normally, the
    context's error when the context is done first.  When the list is used up
    the calls return normally. *)
Record World : Type := mkWorld {
  session : HooksContext;
  pending : list (option error)
}.

(** A call together with what it returned. *)
Inductive event : Type :=
| Called (c : call) (r : result c).

Definition next_outcome (env : list (option error))
  : option error * list (option error) :=
  match env with
  | [] => (None, [])
  | o :: rest => (o, rest)
  end.

(** Modelled from the spec: what each call of [HooksContext], [Counter] and
    [Barrier] returns and does to the session.  A blocking call that fails
    leaves the session as it is; a [Wait] that returns has left the queue it
    entered ("removes this waiter").  The handler is the function captured in
    the run-state. *)
Definition serve (c : call) (w : World) : result c * World :=
  match c as c0 return result c0 * World with
  | acquireRunLock _ =>
      let '(o, rest) := next_outcome (pending w) in
      match o with
      | None => (None, mkWorld (Session.acquire (session w)) rest)
      | Some e => (Some e, mkWorld (session w) rest)
      end
  | releaseRunLock => (tt, mkWorld (Session.release (session w)) (pending w))
  | GetCounter id | getCounterLocked id =>
      (id, mkWorld (Session.lookupCounter id (session w)) (pending w))
  | Counter_Get c => (Session.counterGet c (session w), w)
  | Counter_Update c delta =>
      (tt, mkWorld (Session.counterUpdate c delta (session w)) (pending w))
  | GetBarrier id | getBarrierLocked id =>
      (id, mkWorld (Session.lookupBarrier id (session w)) (pending w))
  | Barrier_Wait b _ _ =>
      let '(o, rest) := next_outcome (pending w) in
      (o, mkWorld (session w) rest)
  | Barrier_SignalAll b =>
      (tt, mkWorld (Session.signalAll b (session w)) (pending w))
  | Barrier_TrySignalAny b =>
      (tt, mkWorld (Session.trySignalAny b (session w)) (pending w))
  | Handler_call h ctx req => (h ctx req, w)
  end.

(** Running a program: the result, the world it leaves and the calls it
    made, in order. *)
Fixpoint exec {A : Type} (p : Prog A) (w : World) : A * World * list event :=
  match p with
  | Ret a => (a, w, [])
  | Do c k =>
      let '(r, w1) := serve c w in
      let '(a, w2, t) := exec (k r) w1 in
      (a, w2, Called c r :: t)
  end.

(** The world a successful [acquireRunLock] leaves. *)
Definition after_acquire (w : World) : World :=
  mkWorld (Session.acquire (session w)) (next_outcome (pending w)).2.

Definition call_of (e : event) : call :=
  match e with Called c _ => c end.

Definition is_handler (c : call) : bool :=
  match c with Handler_call _ _ _ => true | _ => false end.

Definition is_lock (c : call) : bool :=
  match c with acquireRunLock _ | releaseRunLock => true | _ => false end.

(** How many times the downstream handler was invoked. *)
Definition handler_calls (t : list event) : nat :=
  length (List.filter (fun e => is_handler (call_of e)) t).

(** [never Q p]: no call of the program [p] satisfies [Q], whatever the calls
    return. *)
Fixpoint never (Q : call -> bool) {A : Type} (p : Prog A) : Prop :=
  match p with
  | Ret _ => True
  | Do c k => Q c = false /\ forall r, never Q (k r)
  end.

(** Splits a goal [never Q p] along the calls of [p]. *)
Ltac never_solve :=
  cbn;
  repeat (match goal with
          | |- _ /\ _ => split
          | |- forall _, _ => intro
          | |- True => exact I
          | |- _ = false => reflexivity
          | |- never _ (match ?x with _ => _ end) => destruct x
          end; cbn).

(** ** Lists of actions and of conditions that run without error *)

Section InOrder.
Context {L : Libraries}.

(** [ran s ctx req actions w resps w' t]: run one after the other, each in
    the world the one before left, the [actions] return the responses [resps]
    and no error; they take the world [w] to [w'] and make the calls [t]. *)
Inductive ran (s : runState) (ctx : Context) (req : iface)
  : list HookAction -> World -> list iface -> World -> list event -> Prop :=
| ran_nil (w : World) : ran s ctx req [] w [] w []
| ran_cons (a : HookAction) (rest : list HookAction) (w w1 w2 : World)
    (resp : iface) (resps : list iface) (t1 t2 : list event) :
    exec (runAction s ctx req a) w = ((resp, None), w1, t1) ->
    ran s ctx req rest w1 resps w2 t2 ->
    ran s ctx req (a :: rest) w (resp :: resps) w2 (t1 ++ t2).

(** [hold ctx req conds w w' t]: evaluated one after the other, the
    conditions [conds] are all true, without error. *)
Inductive hold (ctx : Context) (req : iface)
  : list HookCondition -> World -> World -> list event -> Prop :=
| hold_nil (w : World) : hold ctx req [] w w []
| hold_cons (c : HookCondition) (rest : list HookCondition) (w w1 w2 : World)
    (t1 t2 : list event) :
    exec (checkCondition ctx req c) w = ((true, None), w1, t1) ->
    hold ctx req rest w1 w2 t2 ->
    hold ctx req (c :: rest) w w2 (t1 ++ t2).

(** [evaluates s ctx req a w c w1 t]: running the action [a] in the world
    [w] comes to evaluate the condition [c], in the world [w1] and after the
    calls [t], nothing having failed before: [c] is a condition of [a] and the
    conditions before it hold, or [c] is evaluated by an action of the branch
    of [a] that is taken, after the actions before it in the branch. *)
Inductive evaluates (s : runState) (ctx : Context) (req : iface)
  : HookAction -> World -> HookCondition -> World -> list event -> Prop :=
| evaluates_here (before after : list HookCondition) (c : HookCondition)
    (m n : list HookAction) (w w1 : World) (t1 : list event) :
    hold ctx req before w w1 t1 ->
    evaluates s ctx req (HookAction_If (before ++ c :: after) m n) w c w1 t1
| evaluates_in_branch (conds : list HookCondition) (m n pre post : list HookAction)
    (a : HookAction) (c : HookCondition) (ok : bool) (w w1 w2 w3 : World)
    (resps : list iface) (t1 t2 t3 : list event) :
    exec (checkConditions ctx req conds) w = ((ok, None), w1, t1) ->
    (if ok then m else n) = pre ++ a :: post ->
    ran s ctx req pre w1 resps w2 t2 ->
    evaluates s ctx req a w2 c w3 t3 ->
    evaluates s ctx req (HookAction_If conds m n) w c w3 (t1 ++ t2 ++ t3).

End InOrder.

(** The last response that is not nil, the nil interface when there is
    none. *)
Definition last_response (resps : list iface) : iface :=
  default go_nil (last (List.filter (fun r => negb (is_nil r)) resps)).

(** The hook of scenario S3: while counter "n" is below the JSON literal 3,
    add one to it and respond [R1]; otherwise return RESOURCE_EXHAUSTED. *)
Definition S3_hook (R1 : option Any) (msg : string) : Hook :=
  mkHook
    [HookAction_If
       [mkCond (ValueRef_CounterValue "n") ComparisonOperator_LESS_THAN
               (ValueRef_JsonValue "3")]
       [HookAction_Counter "n" 1; HookAction_SetResponse R1]
       [HookAction_ReturnError codes.ResourceExhausted msg []]].

(** ** Several run-states on one session *)

Module Pool.

Definition R : Type := (iface * option error)%type.

(** A run-state is about to make the next call of its program (or has
    returned, when the program is a [Ret]), or is queued on a barrier inside
    [Barrier.Wait]. *)
Inductive status : Type :=
| Running (p : Prog R)
| Parked (b : BarrierRef) (runID : string) (k : option error -> Prog R).

(** [holds] tells whether the run-state has acquired the run-slot and has
    not released it since; [ctxDone] whether its context is cancelled. *)
Record thread : Type := mkThread {
  code : status;
  holds : bool;
  ctxDone : bool
}.

Record pool : Type := mkPool {
  shared : HooksContext;
  threads : list thread
}.

(** The moves: run-state [i] makes its next call; the context of run-state
    [i] is cancelled; the blocking call in which run-state [i] stands
    returns the error of its cancelled context. *)
Inductive label : Type :=
| Go (i : nat)
| Cancel (i : nat)
| Fail (i : nat).

(** A signal releases the waiters [ids] of barrier [b]. *)
Definition wake (b : BarrierRef) (ids : list string) (t : thread) : thread :=
  match code t with
  | Parked b' id k =>
      if bool_decide (b' = b ∧ id ∈ ids)
      then mkThread (Running (k None)) (holds t) (ctxDone t)
      else t
  | Running _ => t
  end.

Definition continue (t : thread) (p : Prog R) (held : bool) : thread :=
  mkThread (Running p) held (ctxDone t).

(** Modelled from the spec: the calls on the session when several
    run-states share it.  [acquireRunLock] "blocks until the slot is free";
    [releaseRunLock] "is idempotent per invocation": the invocation that
    holds the slot frees it, and a release by an invocation that does not
    hold the slot (it has released it already, or its acquisition failed)
    changes nothing; [Barrier.Wait] "appends a waiter to the FIFO" and
    blocks; a signal hands the waiters it pops their release; the other
    calls are those of [serve]. *)
Definition go (i : nat) (p : pool) : option pool :=
  t ← threads p !! i;
  match code t with
  | Parked _ _ _ => None
  | Running (Ret _) => None
  | Running (Do c k) =>
      match c as c0 return (result c0 -> Prog R) -> option pool with
      | acquireRunLock _ => fun k =>
          if runLock (shared p) then None
          else Some (mkPool (Session.acquire (shared p))
                            (<[i := continue t (k None) true]> (threads p)))
      | releaseRunLock => fun k =>
          Some (mkPool (if holds t then Session.release (shared p) else shared p)
                       (<[i := continue t (k tt) false]> (threads p)))
      | Barrier_Wait b _ id => fun k =>
          Some (mkPool (Session.setWaiters b (Session.waiters b (shared p) ++ [id])
                                           (shared p))
                       (<[i := mkThread (Parked b id k) (holds t) (ctxDone t)]>
                          (threads p)))
      | Barrier_SignalAll b => fun k =>
          Some (mkPool (Session.signalAll b (shared p))
                       (wake b (Session.waiters b (shared p)) <$>
                          <[i := continue t (k tt) (holds t)]> (threads p)))
      | Barrier_TrySignalAny b => fun k =>
          Some (mkPool (Session.trySignalAny b (shared p))
                       (wake b (take 1 (Session.waiters b (shared p))) <$>
                          <[i := continue t (k tt) (holds t)]> (threads p)))
      | c0 => fun k =>
          let '(r, w) := serve c0 (mkWorld (shared p) []) in
          Some (mkPool (session w)
                       (<[i := continue t (k r) (holds t)]> (threads p)))
      end k
  end.

Definition cancel (i : nat) (p : pool) : option pool :=
  t ← threads p !! i;
  Some (mkPool (shared p)
               (<[i := mkThread (code t) (holds t) true]> (threads p))).

(** Modelled from the spec: both suspension points "honour ctx
    cancellation and return a cancellation error"; a cancelled waiter "is
    removed" from the queue. *)
Definition fail (i : nat) (p : pool) : option pool :=
  t ← threads p !! i;
  if ctxDone t then
    match code t with
    | Running (Do (acquireRunLock _) k) =>
        Some (mkPool (shared p)
                     (<[i := continue t (k (Some context_Canceled)) (holds t)]>
                        (threads p)))
    | Parked b id k =>
        Some (mkPool (Session.setWaiters b
                        (filter (fun x => x ≠ id) (Session.waiters b (shared p)))
                        (shared p))
                     (<[i := continue t (k (Some context_Canceled)) (holds t)]>
                        (threads p)))
    | Running _ => None
    end
  else None.

Definition step (l : label) (p : pool) : option pool :=
  match l with
  | Go i => go i p
  | Cancel i => cancel i p
  | Fail i => fail i p
  end.

Fixpoint steps (ls : list label) (p : pool) : option pool :=
  match ls with
  | [] => Some p
  | l :: rest => p' ← step l p; steps rest p'
  end.

(** The run-states that are executing actions: those that hold the
    run-slot. *)
Definition active (p : pool) : nat :=
  length (List.filter holds (threads p)).


(** What a run-state has returned, once it has. *)
Definition returned (t : thread) : option R :=
  match code t with
  | Running (Ret r) => Some r
  | _ => None
  end.

(** The start: every run-state is about to enter its program, none holds
    the slot, the slot is free. *)
Definition start (hc : HooksContext) (ps : list (Prog R)) : pool :=
  mkPool (Session.release hc) ((fun p => mkThread (Running p) false false) <$> ps).

(** The discipline of the run-slot.  [lock_rule c held K]: the call [c] is
    made by a run-state that holds the slot or not, as [held] tells, in the
    state the call requires (the acquisition, the wait on a barrier and the
    handler without the slot, the release and every other call with it), and
    [K] holds of what the call returns and of [held] after it.  Of an
    acquisition, only the successful return is followed. *)
Definition lock_rule (c : call) (held : bool)
  : (result c -> bool -> Prop) -> Prop :=
  match c as c0 return (result c0 -> bool -> Prop) -> Prop with
  | acquireRunLock _ => fun K => held = false /\ K None true
  | releaseRunLock => fun K => held = true /\ K tt false
  | Barrier_Wait _ _ _ => fun K => held = false /\ forall r, K r false
  | Handler_call _ _ _ => fun K => held = false /\ forall r, K r false
  | GetCounter _ => fun K => held = true /\ forall r, K r true
  | getCounterLocked _ => fun K => held = true /\ forall r, K r true
  | Counter_Get _ => fun K => held = true /\ forall r, K r true
  | Counter_Update _ _ => fun K => held = true /\ forall r, K r true
  | GetBarrier _ => fun K => held = true /\ forall r, K r true
  | getBarrierLocked _ => fun K => held = true /\ forall r, K r true
  | Barrier_SignalAll _ => fun K => held = true /\ forall r, K r true
  | Barrier_TrySignalAny _ => fun K => held = true /\ forall r, K r true
  end.

(** [disciplined p held Q]: every call of [p] follows the rule, and [Q]
    holds of the result and of [held] at the end. *)
Fixpoint disciplined {A : Type} (p : Prog A) (held : bool)
    (Q : A -> bool -> Prop) : Prop :=
  match p with
  | Ret a => Q a held
  | Do c k => lock_rule c held (fun r held' => disciplined (k r) held' Q)
  end.

(** A program that is run with the slot and ends with it. *)
Definition keeps {A : Type} (p : Prog A) : Prop :=
  disciplined p true (fun _ held => held = true).

(** A run-state follows the discipline and ends without the slot. *)
Definition thread_ok (t : thread) : Prop :=
  match code t with
  | Running p => disciplined p (holds t) (fun _ held => held = false)
  | Parked _ _ k =>
      holds t = false /\
      forall r, disciplined (k r) false (fun _ held => held = false)
  end.

(** The invariant of the pool: the run-states follow the discipline, at
    most one holds the slot, and none does when the slot is free. *)
Definition exclusive (p : pool) : Prop :=
  Forall thread_ok (threads p) /\
  (active p <= 1)%nat /\
  (runLock (shared p) = false -> active p = 0%nat).

Definition is_Fail (l : label) : bool :=
  match l with Fail _ => true | _ => false end.








End Pool.

(** ** The libraries on the inputs of the scenarios *)

Module Scenario.

Definition octets (s : string) : list Z :=
  (fun a => Z.of_N (N_of_ascii a)) <$> list_ascii_of_string s.

(** A continuation octet of UTF-8. *)
Definition cont (b : Z) : bool := (128 <=? b) && (b <=? 191).

(** [utf8.Valid]: well-formed UTF-8 (no overlong form, no surrogate,
    nothing above U+10FFFF). *)
Fixpoint utf8_valid (bs : list Z) : bool :=
  match bs with
  | [] => true
  | b0 :: r0 =>
      if b0 <? 128 then utf8_valid r0
      else match r0 with
      | [] => false
      | b1 :: r1 =>
          if (194 <=? b0) && (b0 <=? 223) then cont b1 && utf8_valid r1
          else match r1 with
          | [] => false
          | b2 :: r2 =>
              if (224 <=? b0) && (b0 <=? 239) then
                (if b0 =? 224 then (160 <=? b1) && (b1 <=? 191)
                 else if b0 =? 237 then (128 <=? b1) && (b1 <=? 159)
                 else cont b1)
                && cont b2 && utf8_valid r2
              else match r2 with
              | [] => false
              | b3 :: r3 =>
                  if (240 <=? b0) && (b0 <=? 244) then
                    (if b0 =? 240 then (144 <=? b1) && (b1 <=? 191)
                     else if b0 =? 244 then (128 <=? b1) && (b1 <=? 143)
                     else cont b1)
                    && cont b2 && cont b3 && utf8_valid r3
                  else false
              end
          end
      end
  end.

(** The base-128 length prefix of the protobuf wire format. *)
Fixpoint varint (fuel : nat) (n : Z) : string :=
  match fuel with
  | O => ""
  | S fuel' =>
      if n <? 128 then String (ascii_of_N (Z.to_N n)) ""
      else String (ascii_of_N (Z.to_N (n mod 128 + 128)))
                  (varint fuel' (n / 128))
  end.

Definition field (tag : Z) (s : string) : string :=
  match s with
  | "" => ""
  | _ => (String (ascii_of_N (Z.to_N tag)) "" ++
          varint 10 (Z.of_nat (String.length s)) ++ s)%string
  end.

(** [anypb.New] on an [Any]: marshalling refuses a type URL that is not
    valid UTF-8 and otherwise packs the two fields of the message. *)
Definition anypb_New_Any (m : Any) : Any + error :=
  if utf8_valid (octets (TypeUrl m)) then
    inl (mkAny "type.googleapis.com/google.protobuf.Any"
               (field 10 (TypeUrl m) ++ field 18 (AnyValue m))%string)
  else inr (library_error "proto" "string field contains invalid UTF-8").

(** The value of a decimal digit, and of a string of them. *)
Definition digit (a : ascii) : option Z :=
  let n := Z.of_N (N_of_ascii a) in
  if (48 <=? n) && (n <=? 57) then Some (n - 48) else None.

Fixpoint digits (s : string) (acc : Z) : option Z :=
  match s with
  | "" => Some acc
  | String a r => d ← digit a; digits r (10 * acc + d)
  end.

(** [json.Unmarshal] on the texts of the scenarios: the literals [null],
    [true], [false], the decimal integers of absolute value below [2^53],
    with or without a minus sign (a JSON number becomes a [float64]), and a
    text that ends after an opening brace or bracket, which
    [encoding/json] refuses with "unexpected end of JSON input".  Strings,
    fractions, exponents and non-empty arrays and objects are not decoded:
    the scenarios do not use them. *)
Definition json_Unmarshal_integer (negative : bool) (text : string)
  : iface + error :=
  match text with
  | "" => inr (library_error "json" "unexpected end of JSON input")
  | String a r =>
      match digits text 0 with
      | Some n =>
          if (n <? 2 ^ 53) && (negb (Ascii.eqb a "0") || String.eqb r "")
          then inl (go_float64 (F64_finite negative n 0))
          else inr (library_error "json" "invalid number literal")
      | None => inr (library_error "json" "invalid character")
      end
  end.

Definition json_Unmarshal_literal (text : string) : iface + error :=
  if String.eqb text "null" then inl go_nil
  else if String.eqb text "true" then inl (go_bool true)
  else if String.eqb text "false" then inl (go_bool false)
  else if String.eqb text "{" || String.eqb text "[" then
    inr (library_error "json" "unexpected end of JSON input")
  else match text with
       | String "-" r => json_Unmarshal_integer true r
       | _ => json_Unmarshal_integer false text
       end.

(** The exact value of an operand of the numeric class. *)
Inductive number : Type :=
| Finite (m e : Z)          (* m * 2^e *)
| Infinite (negative : bool).

Definition number_of (v : iface) : option number :=
  match v with
  | go_bool b => Some (Finite (if b then 1 else 0) 0)
  | go_int64 n => Some (Finite n 0)
  | go_float64 (F64_finite s m e) => Some (Finite (if s then - m else m) e)
  | go_float64 (F64_inf s) => Some (Infinite s)
  | _ => None
  end.

Definition sign_of (c : comparison) : Z :=
  match c with Lt => -1 | Eq => 0 | Gt => 1 end.

Definition number_compare (a b : number) : Z :=
  match a, b with
  | Finite m1 e1, Finite m2 e2 =>
      let e := Z.min e1 e2 in
      sign_of (m1 * 2 ^ (e1 - e) ?= m2 * 2 ^ (e2 - e))
  | Finite _ _, Infinite neg => if neg then 1 else -1
  | Infinite neg, Finite _ _ => if neg then -1 else 1
  | Infinite n1, Infinite n2 =>
      if eqb n1 n2 then 0 else if n1 then -1 else 1
  end.

Definition InvalidComparison : error :=
  library_error "govalcmp" "invalid comparison".

(** Modelled from the spec: [govalcmp.Compare] on the numeric class
    ("bool, all integer widths, float": "false<true", "integer vs float
    compared by exact value", "NaN vs anything fails"), the textual class
    ("lexicographic over code units") and null ("equal only to null; any
    ordering comparison with null fails").  Operands of other or of
    different classes are refused. *)
Definition Compare_scalar (a b : iface) : Z + error :=
  match number_of a, number_of b with
  | Some x, Some y => inl (number_compare x y)
  | _, _ =>
      match a, b with
      | go_string s, go_string t => inl (sign_of (String.compare s t))
      | go_nil, go_nil => inl 0
      | _, _ => inr InvalidComparison
      end
  end.

#[local] Instance libraries : Libraries := {|
  json_Unmarshal := json_Unmarshal_literal;
  govalcmp_Compare := Compare_scalar;
  anypb_New := anypb_New_Any
  |}.

(** A fresh session, a response payload and the values used below. *)
Definition fresh : HooksContext := mkHooksContext ∅ ∅ false.

Definition R1 : option Any := Some (mkAny "type.googleapis.com/example.R1" "").

Definition three : iface := go_float64 (F64_finite false 3 0).

(** A detail whose type URL is the single octet 255, which is not UTF-8. *)
Definition bad_detail : Any := mkAny (String "255"%char "") "".

Definition counter_vs (op : ComparisonOperator) (text : string) : HookCondition :=
  mkCond (ValueRef_CounterValue "n") op (ValueRef_JsonValue text).

(** A downstream handler. *)
Definition downstream : UnaryHandler :=
  fun _ _ => (go_message "Response" "", None).





(** Scenario S4: one invocation waits on barrier "b" and then responds, the
    other signals the barrier and responds.  In [handshake] the first parks
    on the barrier, the second runs to its end, and the first, released by
    the signal, takes the slot again and finishes. *)
Definition Ra : option Any := Some (mkAny "type.googleapis.com/example.Ra" "").
Definition Rb : option Any := Some (mkAny "type.googleapis.com/example.Rb" "").

Definition rendezvous_runs : list (runState * Context * iface) :=
  [(mkRunState "run-A" downstream
      (mkHook [HookAction_WaitOnBarrier "b"; HookAction_SetResponse Ra]),
    0%nat, go_nil);
   (mkRunState "run-B" downstream
      (mkHook [HookAction_SignalBarrier "b" false; HookAction_SetResponse Rb]),
    1%nat, go_nil)].

Definition handshake : list Pool.label :=
  [Pool.Go 0; Pool.Go 0; Pool.Go 0; Pool.Go 0;
   Pool.Go 1; Pool.Go 1; Pool.Go 1; Pool.Go 1;
   Pool.Go 0; Pool.Go 0].

End Scenario.

(** ** What programs return and which calls they make *)

(** [always P p]: whatever its calls return, the result of [p] satisfies
    [P]. *)
Fixpoint always {A : Type} (P : A -> Prop) (p : Prog A) : Prop :=
  match p with
  | Ret a => P a
  | Do _ k => forall r, always P (k r)
  end.

(** The payloads of the [SetResponse] actions of an action, at any depth,
    in the order of the text. *)
Fixpoint payloads (a : HookAction) : list (option Any) :=
  match a with
  | HookAction_If _ m n => List.flat_map payloads m ++ List.flat_map payloads n
  | HookAction_SetResponse v => [v]
  | _ => []
  end.

(** What an action list can return: nothing, one of the payloads [vs], or
    an error with a nil response. *)
Definition outcome_of (vs : list (option Any)) (r : iface * option error) : Prop :=
  r = (go_nil, None) \/
  (exists v, In v vs /\ r = (go_AnyPtr v, None)) \/
  (exists e, r = (go_nil, Some e)).

(** The actions that neither branch, wait nor fail by themselves. *)
Definition plain (a : HookAction) : bool :=
  match a with
  | HookAction_Counter _ _ | HookAction_SignalBarrier _ _
  | HookAction_SetResponse _ => true
  | _ => false
  end.

(** The response of a plain action. *)
Definition response_of (a : HookAction) : iface :=
  match a with
  | HookAction_SetResponse v => go_AnyPtr v
  | _ => go_nil
  end.

(** Whether an action contains a [WaitOnBarrier], at any depth. *)
Fixpoint waits (a : HookAction) : bool :=
  match a with
  | HookAction_If _ m n => existsb waits m || existsb waits n
  | HookAction_WaitOnBarrier _ => true
  | _ => false
  end.

(** The calls on the run-slot and the call that waits on a barrier. *)
Definition is_slot_call (c : call) : bool :=
  match c with
  | acquireRunLock _ | releaseRunLock | Barrier_Wait _ _ _ => true
  | _ => false
  end.

(** The calls that read a counter. *)
Definition is_counter_read (c : call) : bool :=
  match c with
  | GetCounter _ | Counter_Get _ => true
  | _ => false
  end.

(** The calls on the run-slot made in a trace, in order. *)
Definition slot_calls (t : list event) : list call :=
  call_of <$> List.filter (fun e => is_slot_call (call_of e)) t.

(** The calls other than the reads of a counter. *)
Definition not_counter_read (c : call) : bool := negb (is_counter_read c).

(** Two worlds that cannot be told apart by reading: every counter reads the
    same, the barriers and the run-slot are the same and the same outcomes are
    in store for the blocking calls. *)
Definition same_values (w w' : World) : Prop :=
  (forall c, Session.counterGet c (session w') = Session.counterGet c (session w)) /\
  barriers (session w') = barriers (session w) /\
  runLock (session w') = runLock (session w) /\
  pending w' = pending w.

(** ** How action lists compose *)

(** What the loop of [runActions] returns when it has the response [acc] in
    hand and the actions still to run return [r]: the response of [r] when it
    has one, the error of [r] with its nil response, and [acc] otherwise. *)
Definition carry (acc : iface) (r : iface * option error) : iface * option error :=
  (if is_nil r.1 && is_nil_error r.2 then acc else r.1, r.2).

(** ** Details of a status *)

(** Packing every detail of a list with [anypb.New]: the packed details, or
    nothing when one of them does not pack. *)
Definition pack_all {L : Libraries} (details : list Any) : option (list Any) :=
  mapM (fun d => match anypb_New d with
                 | inl p => Some p
                 | inr _ => None
                 end) details.

(** ** Operators and their complements *)

(** The operator that holds exactly when [op] does not, for the order
    comparisons (there is no operator for "not equal"). *)
Definition negate (op : ComparisonOperator) : option ComparisonOperator :=
  match op with
  | ComparisonOperator_LESS_THAN => Some ComparisonOperator_GREATER_THAN_OR_EQUAL
  | ComparisonOperator_GREATER_THAN_OR_EQUAL => Some ComparisonOperator_LESS_THAN
  | ComparisonOperator_GREATER_THAN => Some ComparisonOperator_LESS_THAN_OR_EQUAL
  | ComparisonOperator_LESS_THAN_OR_EQUAL => Some ComparisonOperator_GREATER_THAN
  | _ => None
  end.

(** ** The error handler of the data service (package [server_v1]) *)

Module server_v1.
Section ErrorHandler.

(** The detail messages ([protoiface.MessageV1]) and [anypb.New] on them. *)
Variable Message : Type.
Variable pack : Message -> Any + error.

(** The loop of [status.WithDetails] over its details: each one is packed
    and appended; the first that does not pack ends the call with its
    error. *)
Fixpoint pack_details (details : list Message) : list Any + error :=
  match details with
  | [] => inl []
  | d :: rest =>
      match pack d with
      | inr err => inr err
      | inl p =>
          match pack_details rest with
          | inr err => inr err
          | inl ps => inl (p :: ps)
          end
      end
  end.

(** [st.WithDetails(details...)], after the library's documentation as for
    [status.WithDetails] above, for any number of details. *)
Definition WithDetails (s : option Status) (details : list Message)
  : option Status * option error :=
  match s with
  | None =>
      (None, Some (errors_New "no error details for status with code OK"))
  | Some st =>
      if StatusCode st =? codes.OK then
        (None, Some (errors_New "no error details for status with code OK"))
      else
        match pack_details details with
        | inl packed =>
            (Some (mkStatus (StatusCode st) (StatusMessage st)
                            (StatusDetails st ++ packed)), None)
        | inr err => (None, Some err)
        end
  end.

Definition tryAttachStatusDetails (st : option Status) (details : list Message)
  : option Status :=
  let '(newSt, err) := WithDetails st details in
  if is_nil_error err then newSt else st.

End ErrorHandler.
End server_v1.

(** ** The topology served to legacy clients (package [legacytopology]) *)

Module legacytopology.

(** What a Go function does: it returns, or it panics. *)
Inductive outcome (A : Type) : Type :=
| Returned (a : A)
| Panicked (msg : string).

Arguments Returned {A} a.
Arguments Panicked {A} msg.

(** The fields [ComputeTopology] reads of a member of the cluster snapshot
    ([nebclustering.Snapshot]) and of the remote topology
    ([remotetopology.Topology]); a revision is an array of numbers, and
    [NumVbuckets] a [uint]. *)
Record Member : Type := mkMember {
  MemberID : string;
  MemberServerGroup : string;
  LegacyEnabled : bool
}.

Record Snapshot : Type := mkSnapshot {
  SnapshotRevision : list Z;
  Members : list Member
}.

Record RemoteVbucketRouting : Type := mkRemoteVbucketRouting {
  NumVbuckets : Z
}.

Record RemoteTopology : Type := mkRemoteTopology {
  RemoteRevision : list Z;
  RemoteRouting : option RemoteVbucketRouting
}.

(** The topology [ComputeTopology] builds. *)
Record Node : Type := mkNode {
  NodeID : string;
  ServerGroup : string
}.

Record DataNode : Type := mkDataNode {
  DataNodeNode : Node
}.

Record VbucketRouting : Type := mkVbucketRouting {
  RoutingNodes : list DataNode;
  Vbuckets : list Z
}.

Record Topology : Type := mkTopology {
  Revision : list Z;
  Nodes : list Node;
  Routing : option VbucketRouting
}.

Section Compute.

(** [revisionarr.Add], of another repository. *)
Variable revisionarr_Add : list Z -> list Z -> list Z.

(** The first loop: the members with legacy mode enabled, in order. *)
Fixpoint legacy_nodes (members : list Member) : list Node :=
  match members with
  | [] => []
  | lclNode :: rest =>
      if negb (LegacyEnabled lclNode) then legacy_nodes rest
      else mkNode (MemberID lclNode) (MemberServerGroup lclNode)
             :: legacy_nodes rest
  end.

(** The vbucket stored for [vbId]: [uint32(vbId % numDataNodes)]. *)
Definition linear (numDataNodes vbId : Z) : Z :=
  (vbId mod numDataNodes) mod 2 ^ 32.

(** The loop [for vbId := uint(0); vbId < NumVbuckets; vbId++], with the
    number [left] of iterations still to run; the remainder by zero
    panics. *)
Fixpoint assign (numDataNodes : Z) (left : nat) (vbId : Z)
    (vbucketAssignment : list Z) : outcome (list Z) :=
  match left with
  | O => Returned vbucketAssignment
  | S left' =>
      if numDataNodes =? 0 then
        Panicked "runtime error: integer divide by zero"
      else
        assign numDataNodes left' (vbId + 1)
               (<[Z.to_nat vbId := linear numDataNodes vbId]> vbucketAssignment)
  end.

Definition ComputeTopology (lt : Snapshot) (rt : RemoteTopology)
  : outcome (Topology * option error) :=
  let nodes := legacy_nodes (Members lt) in
  let vbucketRouting :=
    match RemoteRouting rt with
    | None => Returned None
    | Some routing =>
        let dataNodes := mkDataNode <$> nodes in
        let vbucketAssignment := replicate (Z.to_nat (NumVbuckets routing)) 0 in
        let numDataNodes := Z.of_nat (length dataNodes) in
        match assign numDataNodes (Z.to_nat (NumVbuckets routing)) 0
                     vbucketAssignment with
        | Panicked msg => Panicked msg
        | Returned vbucketAssignment =>
            Returned (Some (mkVbucketRouting dataNodes vbucketAssignment))
        end
    end in
  match vbucketRouting with
  | Panicked msg => Panicked msg
  | Returned vbucketRouting =>
      let mergeRevision :=
        revisionarr_Add (SnapshotRevision lt) (RemoteRevision rt) in
      Returned (mkTopology mergeRevision nodes vbucketRouting, None)
  end.

End Compute.

(** How many vbuckets of an assignment go to the data node [i]. *)
Definition load (i : Z) (vbuckets : list Z) : nat :=
  length (List.filter (fun v => v =? i) vbuckets).

End legacytopology.

(** * Properties *)

(** ** Programs and their calls *)

Lemma exec_bind {A B : Type} (m : Prog A) (f : A -> Prog B) (w : World) :
  exec (m ≫= f) w =
  let '(a, w1, t1) := exec m w in
  let '(b, w2, t2) := exec (f a) w1 in
  (b, w2, t1 ++ t2).
Proof.
  revert w. induction m as [a | c k IH]; intros w.
  - cbn. destruct (exec (f a) w) as [[b w2] t2]. reflexivity.
  - change (Do c k ≫= f) with (Do c (fun r => k r ≫= f)). cbn [exec].
    destruct (serve c w) as [r w1]. rewrite IH.
    destruct (exec (k r) w1) as [[a w2] t1].
    destruct (exec (f a) w2) as [[b w3] t2]. reflexivity.
Qed.

Lemma exec_perform (c : call) (w : World) :
  exec (perform c) w = ((serve c w).1, (serve c w).2, [Called c (serve c w).1]).
Proof. unfold perform. cbn. destruct (serve c w). reflexivity. Qed.

Section Comparison.
Context {L : Libraries}.

(** C4.  When the comparator gives the delta [d] for two resolved values,
    [compare] returns no error for the five named operators and its boolean
    is: for EQUAL, [d = 0]; for GREATER_THAN, [d > 0]; for
    GREATER_THAN_OR_EQUAL, [d >= 0]; for LESS_THAN, [d < 0]; for
    LESS_THAN_OR_EQUAL, [d <= 0].  For every other operator it returns the
    error "invalid comparison operator". *)
Theorem compare_by_delta (left right : iface) (d : Z) :
  govalcmp_Compare left right = inl d ->
  (exists b, compare left ComparisonOperator_EQUAL right = (b, None)
             /\ (b = true <-> d = 0)) /\
  (exists b, compare left ComparisonOperator_GREATER_THAN right = (b, None)
             /\ (b = true <-> d > 0)) /\
  (exists b, compare left ComparisonOperator_GREATER_THAN_OR_EQUAL right = (b, None)
             /\ (b = true <-> d >= 0)) /\
  (exists b, compare left ComparisonOperator_LESS_THAN right = (b, None)
             /\ (b = true <-> d < 0)) /\
  (exists b, compare left ComparisonOperator_LESS_THAN_OR_EQUAL right = (b, None)
             /\ (b = true <-> d <= 0)) /\
  (forall n, compare left (ComparisonOperator_other n) right
             = (false, Some (errors_New "invalid comparison operator"))).
Proof.
  intros Hd. unfold compare. rewrite Hd.
  repeat split; try (eexists; split; [reflexivity |]); try reflexivity.
  - apply Z.eqb_eq.
  - rewrite Z.gtb_ltb, Z.ltb_lt. lia.
  - rewrite Z.geb_leb, Z.leb_le. lia.
  - apply Z.ltb_lt.
  - apply Z.leb_le.
Qed.

End Comparison.

(** Induction on an action and on the actions nested in its branches. *)
Lemma HookAction_nested_ind (P : HookAction -> Prop) :
  (forall c m n, Forall P m -> Forall P n -> P (HookAction_If c m n)) ->
  (forall id d, P (HookAction_Counter id d)) ->
  (forall id, P (HookAction_WaitOnBarrier id)) ->
  (forall id a, P (HookAction_SignalBarrier id a)) ->
  (forall v, P (HookAction_SetResponse v)) ->
  (forall c m d, P (HookAction_ReturnError c m d)) ->
  P HookAction_unset ->
  forall a, P a.
Proof.
  intros HIf HCounter HWait HSignal HSet HErr HUnset.
  fix IH 1. intros [c m n | id d | id | id a | v | c m d | ].
  - apply HIf.
    + induction m as [| x xs IHxs]; constructor; [apply IH | exact IHxs].
    + induction n as [| x xs IHxs]; constructor; [apply IH | exact IHxs].
  - apply HCounter.
  - apply HWait.
  - apply HSignal.
  - apply HSet.
  - apply HErr.
  - apply HUnset.
Qed.

Lemma never_bind (Q : call -> bool) {A B : Type} (m : Prog A) (f : A -> Prog B) :
  never Q m -> (forall a, never Q (f a)) -> never Q (m ≫= f).
Proof.
  intros Hm Hf. induction m as [a | c k IH].
  - apply Hf.
  - destruct Hm as [Hc Hk]. split; [exact Hc |]. intros r. apply IH, Hk.
Qed.

Lemma never_perform (Q : call -> bool) (c : call) :
  Q c = false -> never Q (perform c).
Proof. intros H. split; [exact H | intros r; exact I]. Qed.

Lemma never_exec (Q : call -> bool) {A : Type} (p : Prog A) (w : World) :
  never Q p -> Forall (fun e => Q (call_of e) = false) (exec p w).2.
Proof.
  revert w. induction p as [a | c k IH]; intros w Hp.
  - constructor.
  - destruct Hp as [Hc Hk]. cbn [exec].
    destruct (serve c w) as [r w1]. specialize (IH r w1 (Hk r)).
    destruct (exec (k r) w1) as [[a w2] t]. constructor; assumption.
Qed.

Lemma handler_calls_never (t : list event) :
  Forall (fun e => is_handler (call_of e) = false) t -> handler_calls t = 0%nat.
Proof.
  unfold handler_calls. induction 1 as [| e t He _ IH]; [reflexivity |].
  destruct e as [c r].
  destruct c; cbn in He; try discriminate; cbn; exact IH.
Qed.

Lemma handler_calls_app (t1 t2 : list event) :
  handler_calls (t1 ++ t2) = (handler_calls t1 + handler_calls t2)%nat.
Proof. unfold handler_calls. rewrite List.filter_app, length_app. reflexivity. Qed.

Section Calls.
Context {L : Libraries}.

Lemma never_handler_resolveValueRef ctx req ref :
  never is_handler (resolveValueRef ctx req ref).
Proof.
  destruct ref; unfold resolveValueRef, resolveValueRef_JsonValue; never_solve.
Qed.

Lemma never_handler_checkCondition ctx req cond :
  never is_handler (checkCondition ctx req cond).
Proof.
  unfold checkCondition.
  apply never_bind; [apply never_handler_resolveValueRef |].
  intros [leftVal [e |]]; [exact I |].
  apply never_bind; [apply never_handler_resolveValueRef |].
  intros [rightVal [e |]]; [exact I |].
  destruct (compare leftVal (Op cond) rightVal) as [ok [e |]]; exact I.
Qed.

Lemma never_handler_checkConditions ctx req conds :
  never is_handler (checkConditions ctx req conds).
Proof.
  induction conds as [| cond rest IH]; [exact I |].
  cbn [checkConditions].
  apply never_bind; [apply never_handler_checkCondition |].
  intros [ok [e |]]; [exact I |]. destruct ok; [exact IH | exact I].
Qed.

Lemma never_handler_loop (f : HookAction -> Prog (iface * option error))
    (acc : iface) (actions : list HookAction) :
  Forall (fun a => never is_handler (f a)) actions ->
  never is_handler (runActions_loop f acc actions).
Proof.
  intros H. revert acc. induction H as [| a rest Ha _ IH]; intros acc; [exact I |].
  cbn [runActions_loop].
  apply never_bind; [exact Ha |].
  intros [resp [e |]]; [exact I | apply IH].
Qed.

Lemma never_handler_runAction s ctx req action :
  never is_handler (runAction s ctx req action).
Proof.
  induction action as [c m n IHm IHn | id d | id | id a | v | c m d | ]
    using HookAction_nested_ind; cbn [runAction].
  - unfold runAction_If_with.
    apply never_bind; [apply never_handler_checkConditions |].
    intros [ok [e |]]; [exact I |].
    destruct ok; apply never_handler_loop; assumption.
  - never_solve.
  - never_solve.
  - destruct a; never_solve.
  - never_solve.
  - never_solve.
  - never_solve.
Qed.

Lemma never_handler_runActions s ctx req actions :
  never is_handler (runActions s ctx req actions).
Proof.
  apply never_handler_loop, Forall_forall. intros a _.
  apply never_handler_runAction.
Qed.

End Calls.

Section RunProperties.
Context {L : Libraries}.

Lemma exec_acquire_ok (ctx : Context) (w : World) :
  (next_outcome (pending w)).1 = None ->
  serve (acquireRunLock ctx) w = (None, after_acquire w).
Proof.
  unfold after_acquire. cbn. destruct (next_outcome (pending w)) as [o rest].
  cbn. intros ->. reflexivity.
Qed.

(** What [Run] does once the slot is acquired, in terms of what its action
    list does. *)
Lemma exec_Run_acquired (s : runState) (ctx : Context) (req : iface) (w : World) :
  (next_outcome (pending w)).1 = None ->
  exec (Run s ctx req) w =
  let '(out, w1, t1) :=
    exec (runActions s ctx req (Actions (RunHook s))) (after_acquire w) in
  let w2 := mkWorld (Session.release (session w1)) (pending w1) in
  let pre := Called (acquireRunLock ctx) None :: t1 ++ [Called releaseRunLock tt] in
  if is_nil out.1 && is_nil_error out.2
  then (Handler s ctx req, w2,
        pre ++ [Called (Handler_call (Handler s) ctx req) (Handler s ctx req)])
  else (out, w2, pre).
Proof.
  intros Hacq. unfold Run.
  rewrite exec_bind. unfold perform at 1. cbn [exec].
  rewrite (exec_acquire_ok ctx w Hacq). cbn [app].
  rewrite exec_bind.
  destruct (exec (runActions s ctx req (Actions (RunHook s))) (after_acquire w))
    as [[[resp err] w1] t1].
  rewrite exec_bind. unfold perform at 1. cbn [exec serve fst snd].
  destruct (is_nil resp && is_nil_error err).
  - unfold perform. cbn [exec serve]. cbn [app].
    rewrite <- app_assoc. reflexivity.
  - cbn [exec app]. reflexivity.
Qed.

(** C1.  Once the slot is acquired, [Run] invokes the downstream handler
    exactly once when the action list returned neither a non-nil response nor
    an error, and then returns the handler's result as it is; otherwise it
    does not invoke the handler and returns what the action list returned.
    A hook with no action is of the first kind. *)
Theorem Run_calls_handler (s : runState) (ctx : Context) (req : iface) (w : World) :
  (next_outcome (pending w)).1 = None ->
  let out := (exec (runActions s ctx req (Actions (RunHook s))) (after_acquire w)).1.1 in
  let res := (exec (Run s ctx req) w).1.1 in
  let t := (exec (Run s ctx req) w).2 in
  (handler_calls t = 1%nat <-> out = (go_nil, None)) /\
  (handler_calls t = 0%nat <-> out <> (go_nil, None)) /\
  (out = (go_nil, None) -> res = Handler s ctx req) /\
  (out <> (go_nil, None) -> res = out) /\
  (Actions (RunHook s) = [] -> handler_calls t = 1%nat /\ res = Handler s ctx req).
Proof.
  intros Hacq. cbv zeta. rewrite (exec_Run_acquired s ctx req w Hacq).
  pose proof (never_exec is_handler _ (after_acquire w)
                (never_handler_runActions s ctx req (Actions (RunHook s)))) as Hno.
  apply handler_calls_never in Hno.
  assert (Hempty : Actions (RunHook s) = [] ->
                   (exec (runActions s ctx req (Actions (RunHook s)))
                         (after_acquire w)).1.1 = (go_nil, None)).
  { intros ->. reflexivity. }
  destruct (exec (runActions s ctx req (Actions (RunHook s))) (after_acquire w))
    as [[[resp err] w1] t1].
  cbn [fst snd] in *.
  assert (Hiff : is_nil resp && is_nil_error err = true
                 <-> (resp, err) = (go_nil, None)).
  { rewrite andb_true_iff. split.
    - intros [Hr He]. destruct resp; try discriminate.
      destruct err; [discriminate | reflexivity].
    - intros [= -> ->]. split; reflexivity. }
  assert (Hcount : forall tl,
             handler_calls ((Called (acquireRunLock ctx) None
                             :: t1 ++ [Called releaseRunLock tt]) ++ tl)
             = handler_calls tl).
  { intros tl.
    change (handler_calls ([Called (acquireRunLock ctx) None]
                           ++ (t1 ++ [Called releaseRunLock tt]) ++ tl)
            = handler_calls tl).
    rewrite !handler_calls_app, Hno. reflexivity. }
  destruct (is_nil resp && is_nil_error err) eqn:E; cbn [fst snd].
  - assert (Hout : (resp, err) = (go_nil, None)) by (apply Hiff; reflexivity).
    rewrite Hcount. cbn.
    repeat split; try tauto; try lia; try congruence.
  - assert (Hout : (resp, err) <> (go_nil, None)).
    { intros H. apply Hiff in H. discriminate. }
    rewrite <- (app_nil_r (_ :: t1 ++ [Called releaseRunLock tt])), Hcount. cbn.
    repeat split; try tauto; try lia; try congruence;
      intros H; specialize (Hempty H); contradiction.
Qed.

(** C8.  When the acquisition of the run-slot returns the error of the
    cancelled context, [Run] returns that error with a nil response; the only
    call it has made is the acquisition (no action has run, the handler is
    not invoked) and the session is as it was. *)
Theorem Run_acquire_cancelled (s : runState) (ctx : Context) (req : iface)
    (hc : HooksContext) (e : error) (rest : list (option error)) :
  exec (Run s ctx req) (mkWorld hc (Some e :: rest))
  = ((go_nil, Some e), mkWorld hc rest, [Called (acquireRunLock ctx) (Some e)]).
Proof.
  unfold Run. rewrite exec_bind. unfold perform at 1.
  cbn [exec serve pending next_outcome session]. reflexivity.
Qed.

(** *** Lists of actions *)

Lemma last_response_cons (resp : iface) (resps : list iface) (acc : iface) :
  default acc (last (List.filter (fun r => negb (is_nil r)) (resp :: resps)))
  = default (if is_nil resp then acc else resp)
            (last (List.filter (fun r => negb (is_nil r)) resps)).
Proof.
  cbn [List.filter]. destruct (is_nil resp); cbn [negb]; [reflexivity |].
  destruct (List.filter (fun r => negb (is_nil r)) resps) as [| x l] eqn:E.
  - reflexivity.
  - rewrite last_cons. destruct (last (x :: l)) eqn:E'; [reflexivity |].
    apply last_None in E'. discriminate.
Qed.

Lemma exec_loop_cons (f : HookAction -> Prog (iface * option error))
    (acc : iface) (a : HookAction) (rest : list HookAction) (w : World) :
  exec (runActions_loop f acc (a :: rest)) w =
  let '(r, w1, t1) := exec (f a) w in
  match r.2 with
  | Some e => ((go_nil, Some e), w1, t1)
  | None =>
      let '(r2, w2, t2) :=
        exec (runActions_loop f (if is_nil r.1 then acc else r.1) rest) w1 in
      (r2, w2, t1 ++ t2)
  end.
Proof.
  cbn [runActions_loop]. rewrite exec_bind.
  destruct (exec (f a) w) as [[[resp [e |]] w1] t1]; cbn [fst snd exec].
  - rewrite app_nil_r. reflexivity.
  - reflexivity.
Qed.

Lemma exec_loop_ran (s : runState) (ctx : Context) (req : iface)
    (actions : list HookAction) (w w' : World) (resps : list iface)
    (t : list event) (acc : iface) :
  ran s ctx req actions w resps w' t ->
  exec (runActions_loop (runAction s ctx req) acc actions) w
  = ((default acc (last (List.filter (fun r => negb (is_nil r)) resps)), None),
     w', t).
Proof.
  intros H. revert acc.
  induction H as [w | a rest w w1 w2 resp resps t1 t2 Ha _ IH]; intros acc.
  - reflexivity.
  - rewrite exec_loop_cons, Ha. cbn [fst snd]. rewrite IH.
    rewrite last_response_cons. reflexivity.
Qed.

Lemma exec_loop_error (s : runState) (ctx : Context) (req : iface)
    (pre post : list HookAction) (a : HookAction) (w w1 w2 : World)
    (resps : list iface) (t1 t2 : list event) (r : iface) (e : error)
    (acc : iface) :
  ran s ctx req pre w resps w1 t1 ->
  exec (runAction s ctx req a) w1 = ((r, Some e), w2, t2) ->
  exec (runActions_loop (runAction s ctx req) acc (pre ++ a :: post)) w
  = ((go_nil, Some e), w2, t1 ++ t2).
Proof.
  intros H Ha. revert acc.
  induction H as [w | a0 rest w w0 w1 resp resps t0 t1 Ha0 _ IH]; intros acc.
  - cbn [app]. rewrite exec_loop_cons, Ha. reflexivity.
  - cbn [app]. rewrite exec_loop_cons, Ha0. cbn [fst snd].
    rewrite (IH Ha). rewrite app_assoc. reflexivity.
Qed.

(** C2.  [runActions] runs the actions in order.  When they all return
    without error, it returns the last response that is not nil (nil when
    there is none) and no error.  When an action returns an error after the
    actions before it returned without one, the actions after it are not run
    and [runActions] returns that error with a nil response, whatever the
    responses [resps] of the actions before. *)
Theorem runActions_in_order (s : runState) (ctx : Context) (req : iface)
    (pre : list HookAction) (w w1 : World) (resps : list iface)
    (t1 : list event) :
  ran s ctx req pre w resps w1 t1 ->
  exec (runActions s ctx req pre) w = ((last_response resps, None), w1, t1) /\
  (forall (a : HookAction) (post : list HookAction) (r : iface) (e : error)
          (w2 : World) (t2 : list event),
      exec (runAction s ctx req a) w1 = ((r, Some e), w2, t2) ->
      exec (runActions s ctx req (pre ++ a :: post)) w
      = ((go_nil, Some e), w2, t1 ++ t2)).
Proof.
  intros H. split.
  - apply exec_loop_ran, H.
  - intros a post r e w2 t2 Ha. eapply exec_loop_error; eassumption.
Qed.

(** *** Lists of conditions *)

Lemma exec_checkConditions_cons (ctx : Context) (req : iface)
    (c : HookCondition) (rest : list HookCondition) (w : World) :
  exec (checkConditions ctx req (c :: rest)) w =
  let '(r, w1, t1) := exec (checkCondition ctx req c) w in
  match r.2 with
  | Some e => ((false, Some e), w1, t1)
  | None =>
      if r.1 then
        let '(r2, w2, t2) := exec (checkConditions ctx req rest) w1 in
        (r2, w2, t1 ++ t2)
      else ((false, None), w1, t1)
  end.
Proof.
  cbn [checkConditions]. rewrite exec_bind.
  destruct (exec (checkCondition ctx req c) w) as [[[ok [e |]] w1] t1];
    cbn [fst snd exec].
  - rewrite app_nil_r. reflexivity.
  - destruct ok; cbn [negb exec]; [reflexivity |].
    rewrite app_nil_r. reflexivity.
Qed.

Lemma exec_checkConditions_hold (ctx : Context) (req : iface)
    (conds : list HookCondition) (w w' : World) (t : list event) :
  hold ctx req conds w w' t ->
  exec (checkConditions ctx req conds) w = ((true, None), w', t).
Proof.
  induction 1 as [w | c rest w w1 w2 t1 t2 Hc _ IH]; [reflexivity |].
  rewrite exec_checkConditions_cons, Hc. cbn [fst snd]. rewrite IH. reflexivity.
Qed.

(** The first condition that is false or fails ends the evaluation of the
    list. *)
Lemma exec_checkConditions_stop (ctx : Context) (req : iface)
    (before after : list HookCondition) (c : HookCondition) (w w1 w2 : World)
    (t1 t2 : list event) (ok : bool) (err : option error) :
  hold ctx req before w w1 t1 ->
  exec (checkCondition ctx req c) w1 = ((ok, err), w2, t2) ->
  ok = false \/ err <> None ->
  exec (checkConditions ctx req (before ++ c :: after)) w
  = ((false, err), w2, t1 ++ t2).
Proof.
  intros H Hc Hstop.
  induction H as [w | c0 rest w w0 w1 t0 t1 Hc0 _ IH].
  - cbn [app]. rewrite exec_checkConditions_cons, Hc. cbn [fst snd].
    destruct err as [e |]; [reflexivity |].
    destruct Hstop as [-> | Hne]; [reflexivity | congruence].
  - cbn [app]. rewrite exec_checkConditions_cons, Hc0. cbn [fst snd].
    rewrite (IH Hc). rewrite app_assoc. reflexivity.
Qed.

(** The dispatch of [runAction] on an [If] is [runAction_If]. *)
Lemma runAction_If_eq (s : runState) (ctx : Context) (req : iface)
    (conds : list HookCondition) (m n : list HookAction) :
  runAction s ctx req (HookAction_If conds m n) = runAction_If s ctx req conds m n.
Proof. reflexivity. Qed.

Lemma exec_runAction_If (s : runState) (ctx : Context) (req : iface)
    (conds : list HookCondition) (m n : list HookAction) (w : World) :
  exec (runAction s ctx req (HookAction_If conds m n)) w =
  let '(r, w1, t1) := exec (checkConditions ctx req conds) w in
  match r.2 with
  | Some e => ((go_nil, Some e), w1, t1)
  | None =>
      let '(r2, w2, t2) :=
        exec (runActions s ctx req (if r.1 then m else n)) w1 in
      (r2, w2, t1 ++ t2)
  end.
Proof.
  cbn [runAction]. unfold runAction_If_with. rewrite exec_bind.
  destruct (exec (checkConditions ctx req conds) w) as [[[ok [e |]] w1] t1];
    cbn [fst snd exec].
  - rewrite app_nil_r. reflexivity.
  - destruct ok; reflexivity.
Qed.

(** What a list of conditions returns, by cases on its first condition
    that is not true. *)
Lemma exec_checkConditions_true (ctx : Context) (req : iface)
    (conds : list HookCondition) (w w' : World) (t : list event) :
  exec (checkConditions ctx req conds) w = ((true, None), w', t) ->
  hold ctx req conds w w' t.
Proof.
  revert w t. induction conds as [| c rest IH]; intros w t H.
  - cbn in H. injection H as <- <-. apply hold_nil.
  - rewrite exec_checkConditions_cons in H.
    destruct (exec (checkCondition ctx req c) w) as [[[ok [e |]] w1] t1] eqn:Hc;
      cbn [fst snd] in H; [discriminate H |].
    destruct ok; [| discriminate H].
    destruct (exec (checkConditions ctx req rest) w1) as [[r2 w2] t2] eqn:Hr.
    injection H as -> -> <-.
    eapply hold_cons; [exact Hc | apply IH, Hr].
Qed.

Lemma exec_checkConditions_false (ctx : Context) (req : iface)
    (conds : list HookCondition) (w w' : World) (t : list event) :
  exec (checkConditions ctx req conds) w = ((false, None), w', t) ->
  exists (before after : list HookCondition) (c : HookCondition) (w1 : World)
         (t1 t2 : list event),
    conds = before ++ c :: after /\
    hold ctx req before w w1 t1 /\
    exec (checkCondition ctx req c) w1 = ((false, None), w', t2) /\
    t = t1 ++ t2.
Proof.
  revert w t. induction conds as [| c rest IH]; intros w t H.
  - cbn in H. discriminate H.
  - rewrite exec_checkConditions_cons in H.
    destruct (exec (checkCondition ctx req c) w) as [[[ok [e |]] w1] t1] eqn:Hc;
      cbn [fst snd] in H; [discriminate H |].
    destruct ok.
    + destruct (exec (checkConditions ctx req rest) w1) as [[r2 w2] t2] eqn:Hr.
      injection H as -> -> <-.
      destruct (IH w1 t2 Hr) as (before & after & c' & w3 & t3 & t4 & -> & Hh & Hc' & ->).
      exists (c :: before), after, c', w3, (t1 ++ t3), t4.
      split; [reflexivity |].
      split; [eapply hold_cons; [exact Hc | exact Hh] |].
      split; [exact Hc' | apply app_assoc].
    + injection H as <- <-.
      exists [], rest, c, w, [], t1.
      split; [reflexivity |]. split; [apply hold_nil |].
      split; [exact Hc | reflexivity].
Qed.

(** C5.  A list of conditions is their conjunction, evaluated from the left
    up to the first condition that is false.  The list returns true without
    error exactly when each condition, evaluated in the session the one before
    left, returns true without error (so the empty list is true).  It returns
    false without error exactly when some condition returns false without
    error after conditions that all hold; the session and the calls are then
    those of the evaluation up to that condition, whatever the conditions
    after it are, so none of them is evaluated (and none of their errors
    arises), and an [If] action with this list runs its no-match branch. *)
Theorem checkConditions_short_circuit (s : runState) (ctx : Context) (req : iface) :
  (forall (conds : list HookCondition) (w w' : World) (t : list event),
      exec (checkConditions ctx req conds) w = ((true, None), w', t)
      <-> hold ctx req conds w w' t) /\
  (forall (conds : list HookCondition) (w w' : World) (t : list event),
      exec (checkConditions ctx req conds) w = ((false, None), w', t)
      <-> exists (before after : list HookCondition) (c : HookCondition)
                 (w1 : World) (t1 t2 : list event),
            conds = before ++ c :: after /\
            hold ctx req before w w1 t1 /\
            exec (checkCondition ctx req c) w1 = ((false, None), w', t2) /\
            t = t1 ++ t2) /\
  (forall (before : list HookCondition) (c : HookCondition) (w w1 w2 : World)
          (t1 t2 : list event),
      hold ctx req before w w1 t1 ->
      exec (checkCondition ctx req c) w1 = ((false, None), w2, t2) ->
      forall after : list HookCondition,
        exec (checkConditions ctx req (before ++ c :: after)) w
        = ((false, None), w2, t1 ++ t2) /\
        (forall m n : list HookAction,
            exec (runAction s ctx req (HookAction_If (before ++ c :: after) m n)) w
            = let '(r, w3, t3) := exec (runActions s ctx req n) w2 in
              (r, w3, (t1 ++ t2) ++ t3))).
Proof.
  split; [| split].
  - intros conds w w' t. split.
    + apply exec_checkConditions_true.
    + apply exec_checkConditions_hold.
  - intros conds w w' t. split.
    + apply exec_checkConditions_false.
    + intros (before & after & c & w1 & t1 & t2 & -> & Hh & Hc & ->).
      eapply exec_checkConditions_stop; [exact Hh | exact Hc | left; reflexivity].
  - intros before c w w1 w2 t1 t2 H Hc after.
    assert (E : exec (checkConditions ctx req (before ++ c :: after)) w
                = ((false, None), w2, t1 ++ t2)).
    { eapply exec_checkConditions_stop; [exact H | exact Hc | left; reflexivity]. }
    split; [exact E |].
    intros m n. rewrite exec_runAction_If, E. reflexivity.
Qed.

(** *** Errors of conditions *)

(** An error met while evaluating a condition is the result of the action,
    at any depth. *)
Lemma evaluates_error (s : runState) (ctx : Context) (req : iface)
    (a : HookAction) (c : HookCondition) (w w1 w2 : World) (t1 t2 : list event)
    (ok : bool) (e : error) :
  evaluates s ctx req a w c w1 t1 ->
  exec (checkCondition ctx req c) w1 = ((ok, Some e), w2, t2) ->
  exec (runAction s ctx req a) w = ((go_nil, Some e), w2, t1 ++ t2).
Proof.
  intros H Hc.
  induction H as [before after c m n w w1 t1 Hh
                 | conds m n pre post a c b w w1 w3 w4 resps t1 t3 t4 Hcs Hb Hran _ IH].
  - rewrite exec_runAction_If.
    rewrite (exec_checkConditions_stop ctx req before after c w w1 w2 t1 t2 ok
               (Some e) Hh Hc); [reflexivity | right; discriminate].
  - rewrite exec_runAction_If, Hcs. cbn [fst snd]. rewrite Hb.
    unfold runActions.
    rewrite (exec_loop_error s ctx req pre post a w1 w3 w2 resps t3 (t4 ++ t2)
               go_nil e go_nil Hran (IH Hc)).
    rewrite !app_assoc. reflexivity.
Qed.

(** An error of the action list is the result of [Run], which then does not
    invoke the handler. *)
Lemma Run_aborts (s : runState) (ctx : Context) (req : iface) (w w1 : World)
    (t1 : list event) (resp : iface) (e : error) :
  (next_outcome (pending w)).1 = None ->
  exec (runActions s ctx req (Actions (RunHook s))) (after_acquire w)
  = ((resp, Some e), w1, t1) ->
  exec (Run s ctx req) w
  = ((resp, Some e), mkWorld (Session.release (session w1)) (pending w1),
     Called (acquireRunLock ctx) None :: t1 ++ [Called releaseRunLock tt]) /\
  handler_calls (exec (Run s ctx req) w).2 = 0%nat.
Proof.
  intros Hacq Hout.
  pose proof (never_exec is_handler _ (after_acquire w)
                (never_handler_runActions s ctx req (Actions (RunHook s)))) as Hno.
  apply handler_calls_never in Hno. rewrite Hout in Hno. cbn [snd] in Hno.
  rewrite (exec_Run_acquired s ctx req w Hacq), Hout. cbn [fst snd].
  cbn [is_nil_error]. rewrite andb_false_r. split; [reflexivity |]. cbn [snd].
  change (handler_calls ([Called (acquireRunLock ctx) None]
                         ++ t1 ++ [Called releaseRunLock tt]) = 0%nat).
  rewrite !handler_calls_app, Hno. reflexivity.
Qed.

(** C7.  Resolving a [JsonValue] decodes its text, once, without touching
    the session: the decoded value is the result, or the decode error.  When
    the decode fails, the evaluation of a condition that has the value on its
    left, or on its right with a left side that resolves, returns that error
    (not the boolean false); and a hook that comes to evaluate a condition
    returning this error returns the error from [Run], with a nil response and
    without the handler being invoked. *)
Theorem JsonValue_decode_error (s : runState) (ctx : Context) (req : iface)
    (text : string) :
  (forall w : World,
      exec (resolveValueRef ctx req (ValueRef_JsonValue text)) w
      = (match json_Unmarshal text with
         | inl val => (val, None)
         | inr err => (go_nil, Some err)
         end, w, [])) /\
  (forall e : error,
      json_Unmarshal text = inr e ->
      (forall (c : HookCondition) (w : World),
          Left c = ValueRef_JsonValue text ->
          exec (checkCondition ctx req c) w = ((false, Some e), w, [])) /\
      (forall (c : HookCondition) (w w1 : World) (v : iface) (t1 : list event),
          Right c = ValueRef_JsonValue text ->
          exec (resolveValueRef ctx req (Left c)) w = ((v, None), w1, t1) ->
          exec (checkCondition ctx req c) w = ((false, Some e), w1, t1)) /\
      (forall (c : HookCondition) (pre post : list HookAction) (a : HookAction)
              (w w1 w2 w3 : World) (resps : list iface) (t1 t2 t3 : list event),
          (next_outcome (pending w)).1 = None ->
          Actions (RunHook s) = pre ++ a :: post ->
          ran s ctx req pre (after_acquire w) resps w1 t1 ->
          evaluates s ctx req a w1 c w2 t2 ->
          exec (checkCondition ctx req c) w2 = ((false, Some e), w3, t3) ->
          (exec (Run s ctx req) w).1.1 = (go_nil, Some e) /\
          handler_calls (exec (Run s ctx req) w).2 = 0%nat)).
Proof.
  assert (Hres : forall w : World,
             exec (resolveValueRef ctx req (ValueRef_JsonValue text)) w
             = (match json_Unmarshal text with
                | inl val => (val, None)
                | inr err => (go_nil, Some err)
                end, w, [])).
  { intros w. cbn [resolveValueRef]. unfold resolveValueRef_JsonValue.
    destruct (json_Unmarshal text); reflexivity. }
  split; [exact Hres |].
  intros e He. rewrite He in Hres. split; [| split].
  - intros c w Hl. unfold checkCondition. rewrite exec_bind, Hl, Hres.
    reflexivity.
  - intros c w w1 v t1 Hr Hl. unfold checkCondition.
    rewrite exec_bind, Hl. cbn [fst snd]. rewrite exec_bind, Hr, Hres.
    cbn [exec]. rewrite !app_nil_r. reflexivity.
  - intros c pre post a w w1 w2 w3 resps t1 t2 t3 Hacq Hs Hran Hev Hc.
    assert (Hout : exec (runActions s ctx req (Actions (RunHook s)))
                        (after_acquire w)
                   = ((go_nil, Some e), w3, t1 ++ t2 ++ t3)).
    { rewrite Hs. eapply exec_loop_error; [exact Hran |].
      eapply evaluates_error; eassumption. }
    destruct (Run_aborts s ctx req w w3 (t1 ++ t2 ++ t3) go_nil e Hacq Hout)
      as [E Hn].
    split; [rewrite E; reflexivity | exact Hn].
Qed.

(** *** The run-slot *)

Lemma exec_WaitOnBarrier (s : runState) (ctx : Context) (req : iface)
    (b : string) (hc : HooksContext) (o a : option error)
    (rest : list (option error)) :
  exec (runAction s ctx req (HookAction_WaitOnBarrier b))
       (mkWorld hc (o :: a :: rest))
  = ((go_nil, a),
     mkWorld (match a with
              | None => Session.acquire (Session.release (Session.lookupBarrier b hc))
              | Some _ => Session.release (Session.lookupBarrier b hc)
              end) rest,
     [Called (getBarrierLocked b) b; Called releaseRunLock tt;
      Called (Barrier_Wait b ctx (ID s)) o; Called (acquireRunLock ctx) a]).
Proof. destruct a; reflexivity. Qed.

(** C10.  Once the slot is acquired, the calls of [Run] are the
    acquisition, the calls of the action list, one [releaseRunLock], and after
    it no call on the slot (only the handler, if it is invoked): the release
    happens whatever the action list returned.  A [WaitOnBarrier] returns the
    result of its re-acquisition alone, the result [o] of [Barrier.Wait]
    showing only in the record of the call; when the re-acquisition fails
    with [e] the action list returns [e], the slot is not held by the
    run-state ([runLock] is false in the session the action list leaves) and
    [Run] calls [releaseRunLock] all the same. *)
Theorem Run_releases_once (s : runState) (ctx : Context) (req : iface) (w : World) :
  (next_outcome (pending w)).1 = None ->
  let o := exec (runActions s ctx req (Actions (RunHook s))) (after_acquire w) in
  let r := exec (Run s ctx req) w in
  (exists tail : list event,
      r.2 = Called (acquireRunLock ctx) None
              :: o.2 ++ Called releaseRunLock tt :: tail /\
      Forall (fun e => is_lock (call_of e) = false) tail) /\
  session r.1.2 = Session.release (session o.1.2) /\
  (forall (b : string) (hc : HooksContext) (wo a : option error)
          (rest : list (option error)),
      exec (runAction s ctx req (HookAction_WaitOnBarrier b))
           (mkWorld hc (wo :: a :: rest))
      = ((go_nil, a),
         mkWorld (match a with
                  | None => Session.acquire
                              (Session.release (Session.lookupBarrier b hc))
                  | Some _ => Session.release (Session.lookupBarrier b hc)
                  end) rest,
         [Called (getBarrierLocked b) b; Called releaseRunLock tt;
          Called (Barrier_Wait b ctx (ID s)) wo;
          Called (acquireRunLock ctx) a])) /\
  (forall (b : string) (pre post : list HookAction) (resps : list iface)
          (w0 : World) (t0 : list event) (wo : option error) (e : error)
          (rest : list (option error)),
      Actions (RunHook s) = pre ++ HookAction_WaitOnBarrier b :: post ->
      ran s ctx req pre (after_acquire w) resps w0 t0 ->
      pending w0 = wo :: Some e :: rest ->
      o.1.1 = (go_nil, Some e) /\
      runLock (session o.1.2) = false /\
      o.2 = t0 ++ [Called (getBarrierLocked b) b; Called releaseRunLock tt;
                   Called (Barrier_Wait b ctx (ID s)) wo;
                   Called (acquireRunLock ctx) (Some e)] /\
      r.1.1 = (go_nil, Some e)).
Proof.
  intros Hacq. cbv zeta. rewrite (exec_Run_acquired s ctx req w Hacq).
  split; [| split; [| split]].
  - destruct (exec (runActions s ctx req (Actions (RunHook s))) (after_acquire w))
      as [[out w1] t1]. cbn [fst snd].
    destruct (is_nil out.1 && is_nil_error out.2); cbn [snd].
    + exists [Called (Handler_call (Handler s) ctx req) (Handler s ctx req)].
      split; [| repeat constructor].
      cbn [app]. rewrite <- app_assoc. reflexivity.
    + exists []. split; [reflexivity | constructor].
  - destruct (exec (runActions s ctx req (Actions (RunHook s))) (after_acquire w))
      as [[out w1] t1]. cbn [fst snd].
    destruct (is_nil out.1 && is_nil_error out.2); reflexivity.
  - intros. apply exec_WaitOnBarrier.
  - intros b pre post resps w0 t0 wo e rest Hs Hran Hp.
    assert (E : exec (runActions s ctx req (Actions (RunHook s))) (after_acquire w)
                = ((go_nil, Some e),
                   mkWorld (Session.release (Session.lookupBarrier b (session w0)))
                           rest,
                   t0 ++ [Called (getBarrierLocked b) b; Called releaseRunLock tt;
                          Called (Barrier_Wait b ctx (ID s)) wo;
                          Called (acquireRunLock ctx) (Some e)])).
    { rewrite Hs. eapply exec_loop_error; [exact Hran |].
      destruct w0 as [hc0 p0]. cbn [pending] in Hp. subst p0.
      apply exec_WaitOnBarrier. }
    rewrite E. cbn [fst snd]. repeat split; reflexivity.
Qed.

End RunProperties.

(** ** The session *)

Lemma counterGet_lookupCounter (c id : string) (hc : HooksContext) :
  Session.counterGet c (Session.lookupCounter id hc) = Session.counterGet c hc.
Proof.
  unfold Session.counterGet, Session.lookupCounter.
  destruct (counters hc !! id) eqn:E; [reflexivity |]. cbn [counters].
  destruct (decide (id = c)) as [-> | Hne]; simplify_map_eq; reflexivity.
Qed.

Lemma counterGet_counterUpdate (c : string) (delta : Z) (hc : HooksContext) :
  Session.counterGet c (Session.counterUpdate c delta hc)
  = wrap64 (Session.counterGet c hc + delta).
Proof.
  unfold Session.counterGet at 1, Session.counterUpdate. cbn [counters].
  rewrite lookup_insert_eq. reflexivity.
Qed.

Lemma counterGet_acquire (c : string) (hc : HooksContext) :
  Session.counterGet c (Session.acquire hc) = Session.counterGet c hc.
Proof. reflexivity. Qed.

Lemma counterGet_release (c : string) (hc : HooksContext) :
  Session.counterGet c (Session.release hc) = Session.counterGet c hc.
Proof. reflexivity. Qed.

Lemma wrap64_small (z : Z) : - 2 ^ 63 <= z < 2 ^ 63 -> wrap64 z = z.
Proof. intros H. unfold wrap64. rewrite Z.mod_small; lia. Qed.

(** ** [ReturnError] and the details of the status *)

Section ReturnError.
Context {L : Libraries}.

Lemma WithDetails_nil (detail : Any) :
  (status.WithDetails anypb_New None detail).1 = None.
Proof. reflexivity. Qed.

Lemma attach_nil (details : list Any) :
  fold_left (fun st detail => (status.WithDetails anypb_New st detail).1)
            details None = None.
Proof. induction details as [| d ds IH]; [reflexivity | exact IH]. Qed.

Lemma WithDetails_failure (st : option Status) (detail : Any) (e : error) :
  anypb_New detail = inr e ->
  (status.WithDetails anypb_New st detail).1 = None.
Proof.
  intros H. unfold status.WithDetails.
  destruct (status.Code st =? codes.OK); [reflexivity |].
  destruct st as [st |]; [rewrite H |]; reflexivity.
Qed.

(** Once the attachment of a detail has failed the status is the nil
    pointer, and stays so. *)
Lemma attach_failure (details : list Any) (d : Any) (e : error)
    (st : option Status) :
  d ∈ details -> anypb_New d = inr e ->
  fold_left (fun st detail => (status.WithDetails anypb_New st detail).1)
            details st = None.
Proof.
  intros Hin Hd. revert st.
  induction Hin as [d ds | d d' ds _ IH]; intros st; cbn [fold_left].
  - rewrite (WithDetails_failure st d e Hd). apply attach_nil.
  - apply IH, Hd.
Qed.

(** When every detail packs, they are appended to the status one by one. *)
Lemma attach_success (details packed : list Any) (st : Status) :
  StatusCode st <> codes.OK ->
  Forall2 (fun d p => anypb_New d = inl p) details packed ->
  fold_left (fun st detail => (status.WithDetails anypb_New st detail).1)
            details (Some st)
  = Some (mkStatus (StatusCode st) (StatusMessage st) (StatusDetails st ++ packed)).
Proof.
  intros Hcode H. revert st Hcode.
  induction H as [| d p ds ps Hd _ IH]; intros st Hcode; cbn [fold_left].
  - rewrite app_nil_r. destruct st; reflexivity.
  - unfold status.WithDetails at 2. cbn [status.Code].
    destruct (StatusCode st =? codes.OK) eqn:E;
      [apply Z.eqb_eq in E; contradiction |].
    rewrite Hd. cbn [fst]. rewrite IH by exact Hcode.
    cbn [StatusCode StatusMessage StatusDetails]. rewrite <- app_assoc.
    reflexivity.
Qed.

(** C3 (what the code does).  When the attachment of one of the details
    fails, [runAction_ReturnError] returns a nil response and a nil error: the
    status built from the code and the message is lost, the action list goes
    on as if the action had done nothing, and a hook made of this action
    alone invokes the downstream handler. *)
Theorem ReturnError_detail_failure (ctx : Context) (req : iface) (code : Z)
    (message : string) (details : list Any) (d : Any) (e : error) :
  d ∈ details ->
  anypb_New d = inr e ->
  runAction_ReturnError ctx req code message details = Ret (go_nil, None) /\
  (forall (s : runState) (w : World),
      Actions (RunHook s) = [HookAction_ReturnError code message details] ->
      (next_outcome (pending w)).1 = None ->
      (exec (Run s ctx req) w).1.1 = Handler s ctx req /\
      handler_calls (exec (Run s ctx req) w).2 = 1%nat).
Proof.
  intros Hin Hd.
  assert (E : runAction_ReturnError ctx req code message details
              = Ret (go_nil, None)).
  { unfold runAction_ReturnError.
    rewrite (attach_failure details d e _ Hin Hd). reflexivity. }
  split; [exact E |].
  intros s w Hs Hacq. rewrite (exec_Run_acquired s ctx req w Hacq), Hs.
  unfold runActions. cbn [runActions_loop runAction]. rewrite E. cbn.
  split; reflexivity.
Qed.

(** When every detail packs and the code is not OK, the status is returned
    with its details. *)
Lemma ReturnError_details_attached (ctx : Context) (req : iface) (code : Z)
    (message : string) (details packed : list Any) :
  codes.Code code <> codes.OK ->
  Forall2 (fun d p => anypb_New d = inl p) details packed ->
  runAction_ReturnError ctx req code message details
  = Ret (go_nil, Some (status_Error (mkStatus (codes.Code code) message packed))).
Proof.
  intros Hcode H. unfold runAction_ReturnError, status.New.
  rewrite (attach_success details packed
             (mkStatus (codes.Code code) message []) Hcode H).
  unfold status.Err. cbn [status.Code StatusCode StatusMessage StatusDetails app].
  destruct (codes.Code code =? codes.OK) eqn:E;
    [apply Z.eqb_eq in E; contradiction | reflexivity].
Qed.

End ReturnError.

#[local] Arguments Session.lookupCounter : simpl never.
#[local] Arguments Session.counterGet : simpl never.
#[local] Arguments Session.counterUpdate : simpl never.
#[local] Arguments Session.acquire : simpl never.
#[local] Arguments Session.release : simpl never.

Section ScenarioS3.
Context {L : Libraries}.
Variables (h : UnaryHandler) (R1 : option Any) (msg : string) (v3 : iface).
Hypothesis json_3 : json_Unmarshal "3" = inl v3.
Hypothesis compare_3 :
  forall n : Z, exists d : Z,
    govalcmp_Compare (go_int64 n) v3 = inl d /\ (d < 0 <-> n < 3).

Lemma S3_condition (ctx : Context) (req : iface) (w : World) :
  exec (checkCondition ctx req
          (mkCond (ValueRef_CounterValue "n") ComparisonOperator_LESS_THAN
                  (ValueRef_JsonValue "3"))) w
  = ((bool_decide (Session.counterGet "n" (session w) < 3), None),
     mkWorld (Session.lookupCounter "n" (session w)) (pending w),
     [Called (GetCounter "n") "n";
      Called (Counter_Get "n") (Session.counterGet "n" (session w))]).
Proof.
  unfold checkCondition, resolveValueRef, resolveValueRef_CounterValue,
    resolveValueRef_JsonValue, compare.
  cbn [Left Right Op]. rewrite json_3.
  rewrite exec_bind. cbn. rewrite counterGet_lookupCounter.
  destruct (compare_3 (Session.counterGet "n" (session w))) as (d & Hd & Hlt).
  rewrite Hd. cbn. repeat f_equal.
  destruct (d <? 0) eqn:E.
  - symmetry. apply bool_decide_eq_true. apply Hlt, Z.ltb_lt, E.
  - symmetry. apply bool_decide_eq_false. intros Hn. apply Hlt in Hn.
    apply Z.ltb_lt in Hn. congruence.
Qed.

Lemma S3_invocation (id : string) (ctx : Context) (req : iface) (hc : HooksContext) :
  let n := Session.counterGet "n" hc in
  let o := exec (Run (mkRunState id h (S3_hook R1 msg)) ctx req) (mkWorld hc []) in
  pending o.1.2 = [] /\ handler_calls o.2 = 0%nat /\
  (n < 3 -> o.1.1 = (go_AnyPtr R1, None) /\
            Session.counterGet "n" (session o.1.2) = wrap64 (n + 1)) /\
  (~ n < 3 -> o.1.1 = (go_nil, Some (status_Error
                                       (mkStatus codes.ResourceExhausted msg []))) /\
              Session.counterGet "n" (session o.1.2) = n).
Proof.
  cbv zeta. rewrite exec_Run_acquired by reflexivity.
  cbn [RunHook Actions S3_hook]. unfold runActions.
  rewrite exec_loop_cons, exec_runAction_If, exec_checkConditions_cons.
  rewrite S3_condition. cbn [fst snd after_acquire session pending next_outcome].
  destruct (bool_decide (Session.counterGet "n" (Session.acquire hc) < 3)) eqn:E.
  - apply bool_decide_eq_true in E. rewrite counterGet_acquire in E. cbn.
    rewrite counterGet_release, counterGet_counterUpdate,
      !counterGet_lookupCounter, counterGet_acquire.
    repeat split; try reflexivity; intros; contradiction.
  - apply bool_decide_eq_false in E. rewrite counterGet_acquire in E.
    cbn.
    change (status.Err (status.New (codes.Code codes.ResourceExhausted) msg))
      with (Some (status_Error (mkStatus codes.ResourceExhausted msg []))).
    cbn.
    rewrite counterGet_release, counterGet_lookupCounter, counterGet_acquire.
    repeat split; try reflexivity; intros; contradiction.
Qed.

(** C6.  Scenario S3: with counter "n" at 0, four invocations one after the
    other of the hook [If (counter "n" < json 3) then (Counter "n" +1;
    SetResponse R1) else ReturnError RESOURCE_EXHAUSTED] return [R1] three
    times, leaving the counter at 1, 2 and 3, and then the RESOURCE_EXHAUSTED
    status with the counter still at 3; the handler is never invoked. *)
Theorem S3_conditional_counter (hc : HooksContext)
    (id1 id2 id3 id4 : string) (ctx1 ctx2 ctx3 ctx4 : Context)
    (req1 req2 req3 req4 : iface) :
  Session.counterGet "n" hc = 0 ->
  let invoke id ctx req w :=
    exec (Run (mkRunState id h (S3_hook R1 msg)) ctx req) w in
  let o1 := invoke id1 ctx1 req1 (mkWorld hc []) in
  let o2 := invoke id2 ctx2 req2 o1.1.2 in
  let o3 := invoke id3 ctx3 req3 o2.1.2 in
  let o4 := invoke id4 ctx4 req4 o3.1.2 in
  (o1.1.1 = (go_AnyPtr R1, None) /\ Session.counterGet "n" (session o1.1.2) = 1) /\
  (o2.1.1 = (go_AnyPtr R1, None) /\ Session.counterGet "n" (session o2.1.2) = 2) /\
  (o3.1.1 = (go_AnyPtr R1, None) /\ Session.counterGet "n" (session o3.1.2) = 3) /\
  (o4.1.1 = (go_nil, Some (status_Error
                             (mkStatus codes.ResourceExhausted msg []))) /\
   Session.counterGet "n" (session o4.1.2) = 3) /\
  handler_calls (o1.2 ++ o2.2 ++ o3.2 ++ o4.2) = 0%nat.
Proof.
  intros H0. cbv beta zeta.
  pose proof (S3_invocation id1 ctx1 req1 hc) as I1. cbv zeta in I1.
  destruct (exec (Run (mkRunState id1 h (S3_hook R1 msg)) ctx1 req1)
                 (mkWorld hc [])) as [[r1 [hc1 p1]] t1].
  cbn [fst snd pending session] in *.
  destruct I1 as (-> & Hh1 & [-> Hc1] & _); [lia |].
  rewrite H0 in Hc1. rewrite wrap64_small in Hc1 by lia.
  pose proof (S3_invocation id2 ctx2 req2 hc1) as I2. cbv zeta in I2.
  destruct (exec (Run (mkRunState id2 h (S3_hook R1 msg)) ctx2 req2)
                 (mkWorld hc1 [])) as [[r2 [hc2 p2]] t2].
  cbn [fst snd pending session] in *.
  destruct I2 as (-> & Hh2 & [-> Hc2] & _); [lia |].
  rewrite Hc1 in Hc2. rewrite wrap64_small in Hc2 by lia.
  pose proof (S3_invocation id3 ctx3 req3 hc2) as I3. cbv zeta in I3.
  destruct (exec (Run (mkRunState id3 h (S3_hook R1 msg)) ctx3 req3)
                 (mkWorld hc2 [])) as [[r3 [hc3 p3]] t3].
  cbn [fst snd pending session] in *.
  destruct I3 as (-> & Hh3 & [-> Hc3] & _); [lia |].
  rewrite Hc2 in Hc3. rewrite wrap64_small in Hc3 by lia.
  pose proof (S3_invocation id4 ctx4 req4 hc3) as I4. cbv zeta in I4.
  destruct (exec (Run (mkRunState id4 h (S3_hook R1 msg)) ctx4 req4)
                 (mkWorld hc3 [])) as [[r4 [hc4 p4]] t4].
  cbn [fst snd pending session] in *.
  destruct I4 as (-> & Hh4 & _ & [-> Hc4]); [lia |].
  rewrite !handler_calls_app, Hh1, Hh2, Hh3, Hh4.
  repeat split; try assumption; try reflexivity; lia.
Qed.

End ScenarioS3.

(** ** Several run-states *)

(** *** The discipline of the run-slot *)

Lemma disciplined_mono {A : Type} (p : Prog A) (held : bool)
    (Q Q' : A -> bool -> Prop) :
  (forall a h, Q a h -> Q' a h) ->
  Pool.disciplined p held Q -> Pool.disciplined p held Q'.
Proof.
  intros HQ. revert held. induction p as [a | c k IH]; intros held; cbn.
  - apply HQ.
  - destruct c; cbn; intros [Hh Hk]; (split; [exact Hh |]);
      try (intros r; apply IH, Hk); apply IH, Hk.
Qed.

Lemma disciplined_bind {A B : Type} (m : Prog A) (f : A -> Prog B) (held : bool)
    (Q : B -> bool -> Prop) :
  Pool.disciplined m held (fun a h => Pool.disciplined (f a) h Q) ->
  Pool.disciplined (m ≫= f) held Q.
Proof.
  revert held. induction m as [a | c k IH]; intros held.
  - exact (fun H => H).
  - change (Do c k ≫= f) with (Do c (fun r => k r ≫= f)). cbn.
    destruct c; cbn; intros [Hh Hk]; (split; [exact Hh |]);
      try (intros r; apply IH, Hk); apply IH, Hk.
Qed.

Lemma keeps_bind {A B : Type} (m : Prog A) (f : A -> Prog B) :
  Pool.keeps m -> (forall a, Pool.keeps (f a)) -> Pool.keeps (m ≫= f).
Proof.
  intros Hm Hf. apply disciplined_bind.
  eapply disciplined_mono; [| exact Hm].
  intros a h ->. apply Hf.
Qed.

Section Discipline.
Context {L : Libraries}.

Lemma keeps_resolveValueRef ctx req ref : Pool.keeps (resolveValueRef ctx req ref).
Proof.
  destruct ref; unfold Pool.keeps, resolveValueRef, resolveValueRef_JsonValue; cbn;
    try destruct (json_Unmarshal _); cbn; repeat split.
Qed.

Lemma keeps_checkCondition ctx req cond : Pool.keeps (checkCondition ctx req cond).
Proof.
  unfold checkCondition.
  apply keeps_bind; [apply keeps_resolveValueRef |].
  intros [leftVal [e |]]; [reflexivity |].
  apply keeps_bind; [apply keeps_resolveValueRef |].
  intros [rightVal [e |]]; [reflexivity |].
  destruct (compare leftVal (Op cond) rightVal) as [ok [e |]]; reflexivity.
Qed.

Lemma keeps_checkConditions ctx req conds : Pool.keeps (checkConditions ctx req conds).
Proof.
  induction conds as [| cond rest IH]; [reflexivity |].
  cbn [checkConditions].
  apply keeps_bind; [apply keeps_checkCondition |].
  intros [ok [e |]]; [reflexivity |]. destruct ok; [exact IH | reflexivity].
Qed.

Lemma keeps_loop (f : HookAction -> Prog (iface * option error))
    (acc : iface) (actions : list HookAction) :
  Forall (fun a => Pool.keeps (f a)) actions -> Pool.keeps (runActions_loop f acc actions).
Proof.
  intros H. revert acc. induction H as [| a rest Ha _ IH]; intros acc;
    [reflexivity |].
  cbn [runActions_loop].
  apply keeps_bind; [exact Ha |].
  intros [resp [e |]]; [reflexivity | apply IH].
Qed.

(** An action is run with the slot and ends with it, a wait on a barrier
    giving it up in between. *)
Lemma keeps_runAction s ctx req action : Pool.keeps (runAction s ctx req action).
Proof.
  induction action as [c m n IHm IHn | id d | id | id a | v | c m d | ]
    using HookAction_nested_ind; cbn [runAction].
  - unfold runAction_If_with.
    apply keeps_bind; [apply keeps_checkConditions |].
    intros [ok [e |]]; [reflexivity |].
    destruct ok; apply keeps_loop; assumption.
  - unfold Pool.keeps. cbn. repeat split.
  - unfold Pool.keeps. cbn. repeat split.
  - destruct a; unfold Pool.keeps; cbn; repeat split.
  - reflexivity.
  - reflexivity.
  - reflexivity.
Qed.

Lemma disciplined_Run s ctx req :
  Pool.disciplined (Run s ctx req) false (fun _ held => held = false).
Proof.
  unfold Run.
  change (Pool.disciplined
            (Do (acquireRunLock ctx)
                (fun r => Ret r ≫= fun err =>
                   match err with
                   | Some e => Ret (go_nil, Some e)
                   | None =>
                       runActions s ctx req (Actions (RunHook s))
                       ≫= fun '(resp, err) =>
                            perform releaseRunLock
                            ≫= fun _ =>
                                 if is_nil resp && is_nil_error err
                                 then perform (Handler_call (Handler s) ctx req)
                                 else Ret (resp, err)
                   end))
            false (fun _ held => held = false)).
  cbn [Pool.disciplined Pool.lock_rule]. split; [reflexivity |].
  change (Ret None ≫= ?f) with (f None). cbn beta iota.
  apply disciplined_bind.
  eapply disciplined_mono;
    [| apply keeps_loop, Forall_forall; intros a _; apply keeps_runAction].
  intros [resp err] h ->. cbn.
  split; [reflexivity |].
  destruct (is_nil resp && is_nil_error err); cbn; [| reflexivity].
  split; [reflexivity |]. intros _. reflexivity.
Qed.

End Discipline.

(** *** At most one run-state holds the slot *)

Lemma holders_insert (l : list Pool.thread) (i : nat) (t t' : Pool.thread) :
  l !! i = Some t ->
  (length (List.filter Pool.holds (<[i := t']> l))
   + (if Pool.holds t then 1 else 0)
   = length (List.filter Pool.holds l) + (if Pool.holds t' then 1 else 0))%nat.
Proof.
  revert i. induction l as [| x l IH]; intros [| i] H; cbn in H; try discriminate.
  - injection H as ->. cbn. clear IH.
    destruct (Pool.holds t), (Pool.holds t'); cbn [length]; lia.
  - specialize (IH i H).
    change (<[S i := t']> (x :: l)) with (x :: <[i := t']> l).
    cbn [List.filter]. destruct (Pool.holds x); cbn [length]; lia.
Qed.

Lemma holds_wake (b : BarrierRef) (ids : list string) (t : Pool.thread) :
  Pool.holds (Pool.wake b ids t) = Pool.holds t.
Proof.
  unfold Pool.wake. destruct (Pool.code t); [reflexivity |].
  destruct (bool_decide _); reflexivity.
Qed.

Lemma holders_wake (b : BarrierRef) (ids : list string) (l : list Pool.thread) :
  length (List.filter Pool.holds (Pool.wake b ids <$> l))
  = length (List.filter Pool.holds l).
Proof.
  induction l as [| x l IH]; [reflexivity |].
  cbn. rewrite holds_wake. destruct (Pool.holds x); cbn; rewrite IH; reflexivity.
Qed.

Lemma thread_ok_wake (b : BarrierRef) (ids : list string) (t : Pool.thread) :
  Pool.thread_ok t -> Pool.thread_ok (Pool.wake b ids t).
Proof.
  unfold Pool.thread_ok, Pool.wake.
  destruct (Pool.code t) as [p | b' id k] eqn:E.
  - rewrite E. exact (fun H => H).
  - intros [Hh Hk]. destruct (bool_decide _); cbn.
    + rewrite Hh. apply Hk.
    + rewrite E. split; assumption.
Qed.

Lemma exclusive_wake (hc : HooksContext) (l : list Pool.thread)
    (b : BarrierRef) (ids : list string) :
  Pool.exclusive (Pool.mkPool hc l) ->
  Pool.exclusive (Pool.mkPool hc (Pool.wake b ids <$> l)).
Proof.
  unfold Pool.exclusive, Pool.active. cbn. intros (Hok & H1 & H0).
  rewrite holders_wake. split; [| split; assumption].
  apply Forall_fmap. eapply Forall_impl; [exact Hok |].
  intros t. apply thread_ok_wake.
Qed.

(** A move that leaves the slot and the holder as they are. *)
Lemma exclusive_same (p : Pool.pool) (i : nat) (t t' : Pool.thread)
    (hc : HooksContext) :
  Pool.exclusive p -> Pool.threads p !! i = Some t ->
  Pool.thread_ok t' -> Pool.holds t' = Pool.holds t ->
  runLock hc = runLock (Pool.shared p) ->
  Pool.exclusive (Pool.mkPool hc (<[i := t']> (Pool.threads p))).
Proof.
  unfold Pool.exclusive, Pool.active. cbn.
  intros (Hok & H1 & H0) Hi Ht' Hh Hl.
  pose proof (holders_insert _ i t t' Hi) as E. rewrite Hh in E.
  split; [apply Forall_insert; assumption |].
  rewrite Hl. split; [lia |]. intros Hf. specialize (H0 Hf). lia.
Qed.

(** The acquisition of the free slot. *)
Lemma exclusive_acquire (p : Pool.pool) (i : nat) (t t' : Pool.thread)
    (hc : HooksContext) :
  Pool.exclusive p -> Pool.threads p !! i = Some t ->
  Pool.thread_ok t' -> Pool.holds t = false ->
  runLock (Pool.shared p) = false -> runLock hc = true ->
  Pool.exclusive (Pool.mkPool hc (<[i := t']> (Pool.threads p))).
Proof.
  unfold Pool.exclusive, Pool.active. cbn.
  intros (Hok & H1 & H0) Hi Ht' Hh Hf Hl.
  pose proof (holders_insert _ i t t' Hi) as E. rewrite Hh in E.
  specialize (H0 Hf).
  split; [apply Forall_insert; assumption |].
  rewrite Hl. split; [destruct (Pool.holds t'); lia | discriminate].
Qed.

(** The release by the holder. *)
Lemma exclusive_release (p : Pool.pool) (i : nat) (t t' : Pool.thread)
    (hc : HooksContext) :
  Pool.exclusive p -> Pool.threads p !! i = Some t ->
  Pool.thread_ok t' -> Pool.holds t = true -> Pool.holds t' = false ->
  Pool.exclusive (Pool.mkPool hc (<[i := t']> (Pool.threads p))).
Proof.
  unfold Pool.exclusive, Pool.active. cbn.
  intros (Hok & H1 & H0) Hi Ht' Hh Hh'.
  pose proof (holders_insert _ i t t' Hi) as E. rewrite Hh, Hh' in E.
  split; [apply Forall_insert; assumption |].
  split; [lia |]. intros _. lia.
Qed.

Lemma runLock_lookupCounter (id : string) (hc : HooksContext) :
  runLock (Session.lookupCounter id hc) = runLock hc.
Proof. unfold Session.lookupCounter. destruct (counters hc !! id); reflexivity. Qed.

Lemma runLock_lookupBarrier (id : string) (hc : HooksContext) :
  runLock (Session.lookupBarrier id hc) = runLock hc.
Proof. unfold Session.lookupBarrier. destruct (barriers hc !! id); reflexivity. Qed.

Lemma go_exclusive (i : nat) (p p' : Pool.pool) :
  Pool.go i p = Some p' -> Pool.exclusive p -> Pool.exclusive p'.
Proof.
  unfold Pool.go. intros Hgo Hex.
  destruct (Pool.threads p !! i) as [t |] eqn:Hi; [| discriminate].
  cbn in Hgo.
  assert (Hok : Pool.thread_ok t).
  { destruct Hex as (Hall & _). eapply Forall_lookup_1; eassumption. }
  unfold Pool.thread_ok in Hok.
  destruct (Pool.code t) as [q | b id k] eqn:Hc; [| discriminate].
  destruct q as [a | c k]; [discriminate |].
  cbn [Pool.disciplined] in Hok.
  destruct c; cbn [Pool.lock_rule] in Hok; destruct Hok as [Hh Hk].
  - destruct (runLock (Pool.shared p)) eqn:Hl; [discriminate |].
    injection Hgo as <-.
    eapply (exclusive_acquire p i t);
      [exact Hex | exact Hi | | exact Hh | exact Hl | reflexivity].
    unfold Pool.thread_ok. cbn. exact Hk.
  - injection Hgo as <-.
    eapply (exclusive_release p i t);
      [exact Hex | exact Hi | | exact Hh | reflexivity].
    unfold Pool.thread_ok. cbn. exact Hk.
  - cbn in Hgo. injection Hgo as <-.
    eapply (exclusive_same p i t);
      [exact Hex | exact Hi | | reflexivity | apply runLock_lookupCounter].
    unfold Pool.thread_ok. cbn. rewrite Hh. apply Hk.
  - cbn in Hgo. injection Hgo as <-.
    eapply (exclusive_same p i t);
      [exact Hex | exact Hi | | reflexivity | apply runLock_lookupCounter].
    unfold Pool.thread_ok. cbn. rewrite Hh. apply Hk.
  - cbn in Hgo. injection Hgo as <-.
    eapply (exclusive_same p i t);
      [exact Hex | exact Hi | | reflexivity | reflexivity].
    unfold Pool.thread_ok. cbn. rewrite Hh. apply Hk.
  - cbn in Hgo. injection Hgo as <-.
    eapply (exclusive_same p i t);
      [exact Hex | exact Hi | | reflexivity | reflexivity].
    unfold Pool.thread_ok. cbn. rewrite Hh. apply Hk.
  - cbn in Hgo. injection Hgo as <-.
    eapply (exclusive_same p i t);
      [exact Hex | exact Hi | | reflexivity | apply runLock_lookupBarrier].
    unfold Pool.thread_ok. cbn. rewrite Hh. apply Hk.
  - cbn in Hgo. injection Hgo as <-.
    eapply (exclusive_same p i t);
      [exact Hex | exact Hi | | reflexivity | apply runLock_lookupBarrier].
    unfold Pool.thread_ok. cbn. rewrite Hh. apply Hk.
  - injection Hgo as <-.
    eapply (exclusive_same p i t);
      [exact Hex | exact Hi | | reflexivity | reflexivity].
    unfold Pool.thread_ok. cbn. split; [exact Hh | exact Hk].
  - injection Hgo as <-. apply exclusive_wake.
    eapply (exclusive_same p i t);
      [exact Hex | exact Hi | | reflexivity | reflexivity].
    unfold Pool.thread_ok. cbn. rewrite Hh. apply Hk.
  - injection Hgo as <-. apply exclusive_wake.
    eapply (exclusive_same p i t);
      [exact Hex | exact Hi | | reflexivity | reflexivity].
    unfold Pool.thread_ok. cbn. rewrite Hh. apply Hk.
  - cbn in Hgo. injection Hgo as <-.
    eapply (exclusive_same p i t);
      [exact Hex | exact Hi | | reflexivity | reflexivity].
    unfold Pool.thread_ok. cbn. rewrite Hh. apply Hk.
Qed.

Lemma cancel_exclusive (i : nat) (p p' : Pool.pool) :
  Pool.cancel i p = Some p' -> Pool.exclusive p -> Pool.exclusive p'.
Proof.
  unfold Pool.cancel. intros Hc Hex.
  destruct (Pool.threads p !! i) as [t |] eqn:Hi; [| discriminate].
  cbn in Hc. injection Hc as <-.
  eapply exclusive_same; try eassumption; [| reflexivity | reflexivity].
  destruct Hex as (Hall & _).
  exact (Forall_lookup_1 _ _ _ _ Hall Hi).
Qed.

Lemma steps_exclusive (ls : list Pool.label) (p p' : Pool.pool) :
  Forall (fun l => Pool.is_Fail l = false) ls ->
  Pool.steps ls p = Some p' -> Pool.exclusive p -> Pool.exclusive p'.
Proof.
  intros Hls. revert p. induction Hls as [| l ls Hl _ IH]; intros p Hs Hex.
  - injection Hs as <-. exact Hex.
  - cbn [Pool.steps] in Hs.
    destruct (Pool.step l p) as [p1 |] eqn:E; [| discriminate]. cbn in Hs.
    apply (IH p1 Hs).
    destruct l as [i | i | i]; cbn in E, Hl.
    + eapply go_exclusive; eassumption.
    + eapply cancel_exclusive; eassumption.
    + discriminate.
Qed.

Lemma start_exclusive (hc : HooksContext) (progs : list (Prog Pool.R)) :
  Forall (fun q => Pool.disciplined q false (fun _ held => held = false)) progs ->
  Pool.exclusive (Pool.start hc progs).
Proof.
  intros H. unfold Pool.exclusive, Pool.start, Pool.active. cbn.
  assert (E : length (List.filter Pool.holds
                        ((fun q => Pool.mkThread (Pool.Running q) false false)
                           <$> progs)) = 0%nat).
  { clear H. induction progs as [| q progs IH]; [reflexivity | exact IH]. }
  rewrite E. split; [| split; [lia | reflexivity]].
  apply Forall_fmap. eapply Forall_impl; [exact H |].
  intros q Hq. exact Hq.
Qed.

(** *** The run-slot when blocking calls fail *)




Section Cancellation.
Context {L : Libraries}.







End Cancellation.















(** X1.  The run-slot without failed acquisitions.  Whatever the hooks and the
    interleaving, as long as no blocking call fails on a cancelled context,
    at most one of the run-states of a session holds the run-slot, and every
    run-state makes its calls on counters and barriers while it holds the
    slot, its waits without it. *)
Theorem run_slot_exclusive {L : Libraries} (hc : HooksContext)
    (runs : list (runState * Context * iface)) (ls : list Pool.label)
    (p : Pool.pool) :
  Forall (fun l => Pool.is_Fail l = false) ls ->
  Pool.steps ls (Pool.start hc ((fun r => Run r.1.1 r.1.2 r.2) <$> runs)) = Some p ->
  (Pool.active p <= 1)%nat /\ Forall Pool.thread_ok (Pool.threads p).
Proof.
  intros Hls Hs.
  assert (Hex : Pool.exclusive p).
  { eapply steps_exclusive; [exact Hls | exact Hs |].
    apply start_exclusive, Forall_fmap, Forall_forall.
    intros [[s ctx] req] _. apply disciplined_Run. }
  destruct Hex as (Hok & H1 & _). split; assumption.
Qed.

(** ** The theorems on the inputs of the scenarios *)

Module Witness.
Import Scenario.

#[local] Existing Instance Scenario.libraries.

Lemma compare_three (n : Z) :
  exists d : Z, govalcmp_Compare (go_int64 n) three = inl d /\ (d < 0 <-> n < 3).
Proof.
  eexists. split; [reflexivity |].
  unfold number_compare. cbn [Z.min Z.sub Z.opp Z.add Z.pow Z.pow_pos Pos.iter Z.compare].
  change (2 ^ (0 - Z.min 0 0)) with 1. rewrite !Z.mul_1_r.
  destruct (Z.compare_spec n 3); cbn [sign_of]; lia.
Qed.

(** A hook without actions: the handler is invoked once and its result is
    returned. *)
Lemma Run_calls_handler_witness :
  let s := mkRunState "run-1" downstream (mkHook []) in
  (next_outcome (pending (mkWorld fresh []))).1 = None /\
  handler_calls (exec (Run s 0%nat go_nil) (mkWorld fresh [])).2 = 1%nat /\
  (exec (Run s 0%nat go_nil) (mkWorld fresh [])).1.1 = downstream 0%nat go_nil.
Proof.
  intros s. split; [reflexivity |].
  apply (Run_calls_handler s 0%nat go_nil (mkWorld fresh []) eq_refl).
  reflexivity.
Defined.

(** A response, a counter, then an action whose kind is not set: the list
    without the last action returns the response; with it, the error and a
    nil response, and the action after it is not run. *)
Lemma runActions_in_order_witness :
  let s := mkRunState "run-1" downstream (mkHook []) in
  let pre := [HookAction_SetResponse R1; HookAction_Counter "n" 1] in
  (exec (runActions s 0%nat go_nil pre) (mkWorld fresh [])).1.1
  = (go_AnyPtr R1, None) /\
  (exec (runActions s 0%nat go_nil
           (pre ++ HookAction_unset :: [HookAction_Counter "n" 1]))
        (mkWorld fresh [])).1
  = ((go_nil, Some (errors_New "invalid hook action type")),
     (exec (runActions s 0%nat go_nil pre) (mkWorld fresh [])).1.2).
Proof.
  intros s pre.
  assert (Hran : ran s 0%nat go_nil pre (mkWorld fresh [])
                     [go_AnyPtr R1; go_nil]
                     (mkWorld (Session.counterUpdate "n" 1
                                 (Session.lookupCounter "n" fresh)) [])
                     ([] ++ [Called (getCounterLocked "n") "n";
                             Called (Counter_Update "n" 1) tt] ++ [])).
  { eapply ran_cons; [reflexivity |].
    eapply ran_cons; [reflexivity |]. apply ran_nil. }
  destruct (runActions_in_order s 0%nat go_nil pre _ _ _ _ Hran) as [H1 H2].
  split.
  - rewrite H1. reflexivity.
  - rewrite (H2 HookAction_unset [HookAction_Counter "n" 1] go_nil
               (errors_New "invalid hook action type") _ [] eq_refl).
    rewrite H1. reflexivity.
Defined.

(** A detail that does not pack: the action returns nothing and the handler
    runs. *)
Lemma ReturnError_detail_failure_witness :
  let s := mkRunState "run-1" downstream
             (mkHook [HookAction_ReturnError codes.NotFound "no" [bad_detail]]) in
  anypb_New bad_detail
  = inr (library_error "proto" "string field contains invalid UTF-8") /\
  runAction_ReturnError 0%nat go_nil codes.NotFound "no" [bad_detail]
  = Ret (go_nil, None) /\
  (exec (Run s 0%nat go_nil) (mkWorld fresh [])).1.1 = downstream 0%nat go_nil /\
  handler_calls (exec (Run s 0%nat go_nil) (mkWorld fresh [])).2 = 1%nat.
Proof.
  intros s.
  assert (Hd : anypb_New bad_detail
               = inr (library_error "proto" "string field contains invalid UTF-8"))
    by reflexivity.
  split; [exact Hd |].
  destruct (ReturnError_detail_failure 0%nat go_nil codes.NotFound "no"
              [bad_detail] bad_detail _ (list_elem_of_here _ _) Hd) as [H1 H2].
  split; [exact H1 |].
  exact (H2 s (mkWorld fresh []) eq_refl eq_refl).
Defined.

(** The counter value 2 against the JSON number 3. *)
Lemma compare_by_delta_witness :
  govalcmp_Compare (go_int64 2) three = inl (-1) /\
  compare (go_int64 2) ComparisonOperator_LESS_THAN three = (true, None) /\
  compare (go_int64 2) ComparisonOperator_EQUAL three = (false, None) /\
  compare (go_int64 2) (ComparisonOperator_other 7) three
  = (false, Some (errors_New "invalid comparison operator")).
Proof.
  assert (Hd : govalcmp_Compare (go_int64 2) three = inl (-1)) by reflexivity.
  split; [exact Hd |].
  destruct (compare_by_delta (go_int64 2) three (-1) Hd)
    as ((b1 & E1 & H1) & _ & _ & (b4 & E4 & H4) & _ & H6).
  split; [| split].
  - rewrite E4. f_equal. apply H4. reflexivity.
  - rewrite E1. f_equal. destruct b1; [| reflexivity].
    assert (F : -1 = 0) by (apply H1; reflexivity). discriminate F.
  - apply H6.
Defined.

(** A condition that holds, one that is false, then one on a request field
    against a text that is not JSON: the last one alone returns an error, the
    list returns false without error and the [If] runs its no-match
    branch; the first condition alone, and the empty list, are true. *)
Lemma checkConditions_short_circuit_witness :
  let s := mkRunState "run-1" downstream (mkHook []) in
  let before := [counter_vs ComparisonOperator_LESS_THAN_OR_EQUAL "0"] in
  let c := counter_vs ComparisonOperator_LESS_THAN "0" in
  let later := mkCond (ValueRef_RequestField "a.b") ComparisonOperator_EQUAL
                      (ValueRef_JsonValue "{") in
  (exec (checkCondition 0%nat go_nil later) (mkWorld fresh [])).1.1
  = (false, Some (errors_New "unimplemented request field query")) /\
  (exec (checkConditions 0%nat go_nil (before ++ c :: [later]))
        (mkWorld fresh [])).1.1 = (false, None) /\
  (exec (runAction s 0%nat go_nil
           (HookAction_If (before ++ c :: [later])
              [HookAction_SetResponse R1]
              [HookAction_ReturnError codes.NotFound "no" []]))
        (mkWorld fresh [])).1.1
  = (go_nil, Some (status_Error (mkStatus codes.NotFound "no" []))) /\
  (exec (checkConditions 0%nat go_nil before) (mkWorld fresh [])).1.1
  = (true, None) /\
  exec (checkConditions 0%nat go_nil []) (mkWorld fresh [])
  = ((true, None), mkWorld fresh [], []).
Proof.
  intros s before c later. split; [reflexivity |].
  assert (Hh : hold 0%nat go_nil before (mkWorld fresh [])
                 (mkWorld (Session.lookupCounter "n" fresh) [])
                 ([Called (GetCounter "n") "n"; Called (Counter_Get "n") 0] ++ [])).
  { eapply hold_cons; [reflexivity | apply hold_nil]. }
  assert (Hc : exec (checkCondition 0%nat go_nil c)
                    (mkWorld (Session.lookupCounter "n" fresh) [])
               = ((false, None), mkWorld (Session.lookupCounter "n" fresh) [],
                  [Called (GetCounter "n") "n"; Called (Counter_Get "n") 0]))
    by reflexivity.
  destruct (checkConditions_short_circuit s 0%nat go_nil) as (Hand & _ & Hstop).
  destruct (Hstop before c _ _ _ _ _ Hh Hc [later]) as [H1 H2].
  split; [| split; [| split]].
  - rewrite H1. reflexivity.
  - rewrite H2. reflexivity.
  - apply (proj2 (Hand before _ _ _)) in Hh. rewrite Hh. reflexivity.
  - apply (proj2 (Hand [] (mkWorld fresh []) (mkWorld fresh []) [])), hold_nil.
Defined.

(** Scenario S3 on a fresh session. *)
Lemma S3_conditional_counter_witness :
  let invoke id ctx w :=
    exec (Run (mkRunState id downstream (S3_hook R1 "exhausted")) ctx go_nil) w in
  let o1 := invoke "run-1" 1%nat (mkWorld fresh []) in
  let o2 := invoke "run-2" 2%nat o1.1.2 in
  let o3 := invoke "run-3" 3%nat o2.1.2 in
  let o4 := invoke "run-4" 4%nat o3.1.2 in
  json_Unmarshal "3" = inl three /\
  Session.counterGet "n" fresh = 0 /\
  [o1.1.1; o2.1.1; o3.1.1; o4.1.1]
  = [(go_AnyPtr R1, None); (go_AnyPtr R1, None); (go_AnyPtr R1, None);
     (go_nil, Some (status_Error (mkStatus codes.ResourceExhausted "exhausted" [])))] /\
  [Session.counterGet "n" (session o1.1.2); Session.counterGet "n" (session o2.1.2);
   Session.counterGet "n" (session o3.1.2); Session.counterGet "n" (session o4.1.2)]
  = [1; 2; 3; 3].
Proof.
  intros invoke o1 o2 o3 o4.
  assert (Hj : json_Unmarshal "3" = inl three) by reflexivity.
  assert (H0 : Session.counterGet "n" fresh = 0) by reflexivity.
  split; [exact Hj |]. split; [exact H0 |].
  destruct (S3_conditional_counter downstream R1 "exhausted" three Hj compare_three
              fresh "run-1" "run-2" "run-3" "run-4" 1%nat 2%nat 3%nat 4%nat
              go_nil go_nil go_nil go_nil H0)
    as ([E1 C1] & [E2 C2] & [E3 C3] & [E4 C4] & _).
  subst invoke o1 o2 o3 o4. cbv beta.
  rewrite E1, E2, E3, E4, C1, C2, C3, C4. split; reflexivity.
Defined.

(** A counter action, then an [If] whose second condition compares the
    counter with a text that is not JSON: [Run] returns the decode error and
    does not invoke the handler. *)
Lemma JsonValue_decode_error_witness :
  let c := counter_vs ComparisonOperator_EQUAL "{" in
  let a := HookAction_If [counter_vs ComparisonOperator_GREATER_THAN "0"; c]
             [HookAction_SetResponse R1] [] in
  let s := mkRunState "run-1" downstream (mkHook [HookAction_Counter "n" 1; a]) in
  json_Unmarshal "{" = inr (library_error "json" "unexpected end of JSON input") /\
  (exec (Run s 0%nat go_nil) (mkWorld fresh [])).1.1
  = (go_nil, Some (library_error "json" "unexpected end of JSON input")) /\
  handler_calls (exec (Run s 0%nat go_nil) (mkWorld fresh [])).2 = 0%nat.
Proof.
  intros c a s.
  assert (Hj : json_Unmarshal "{" = inr (library_error "json" "unexpected end of JSON input"))
    by reflexivity.
  split; [exact Hj |].
  destruct (JsonValue_decode_error s 0%nat go_nil "{") as [_ H].
  destruct (H _ Hj) as (_ & Hright & Hhook).
  set (w1 := mkWorld (Session.counterUpdate "n" 1
                        (Session.lookupCounter "n" (Session.acquire fresh))) []).
  set (w2 := mkWorld (Session.lookupCounter "n" (session w1)) []).
  assert (Hran : ran s 0%nat go_nil [HookAction_Counter "n" 1]
                     (after_acquire (mkWorld fresh [])) [go_nil] w1
                     ([Called (getCounterLocked "n") "n";
                       Called (Counter_Update "n" 1) tt] ++ [])).
  { eapply ran_cons; [reflexivity | apply ran_nil]. }
  assert (Hev : evaluates s 0%nat go_nil a w1 c w2
                  ([Called (GetCounter "n") "n"; Called (Counter_Get "n") 1] ++ [])).
  { apply (evaluates_here s 0%nat go_nil
             [counter_vs ComparisonOperator_GREATER_THAN "0"] [] c).
    eapply hold_cons; [reflexivity | apply hold_nil]. }
  assert (Hc : exec (checkCondition 0%nat go_nil c) w2
               = ((false, Some (library_error "json" "unexpected end of JSON input")),
                  mkWorld (Session.lookupCounter "n" (session w2)) [],
                  [Called (GetCounter "n") "n"; Called (Counter_Get "n") 1])).
  { apply (Hright c w2 _ (go_int64 1)); reflexivity. }
  exact (Hhook c [HookAction_Counter "n" 1] [] a (mkWorld fresh []) w1 w2 _
               [go_nil] _ _ _ eq_refl eq_refl Hran Hev Hc).
Defined.

(** A counter action, then a wait whose re-acquisition fails: [Run] returns
    the error, and releases the slot although the run-state does not hold
    it. *)
Lemma Run_releases_once_witness :
  let s := mkRunState "run-1" downstream
             (mkHook [HookAction_Counter "n" 1; HookAction_WaitOnBarrier "b";
                      HookAction_SetResponse R1]) in
  let w := mkWorld fresh [None; Some context_Canceled; Some context_Canceled] in
  let o := exec (runActions s 0%nat go_nil (Actions (RunHook s))) (after_acquire w) in
  (next_outcome (pending w)).1 = None /\
  runLock (session o.1.2) = false /\
  (exec (Run s 0%nat go_nil) w).1.1 = (go_nil, Some context_Canceled) /\
  o.2 = [Called (getCounterLocked "n") "n"; Called (Counter_Update "n" 1) tt;
         Called (getBarrierLocked "b") "b"; Called releaseRunLock tt;
         Called (Barrier_Wait "b" 0%nat "run-1") (Some context_Canceled);
         Called (acquireRunLock 0%nat) (Some context_Canceled)].
Proof.
  intros s w o. split; [reflexivity |].
  destruct (Run_releases_once s 0%nat go_nil w eq_refl) as (_ & _ & _ & H).
  assert (Hran : ran s 0%nat go_nil [HookAction_Counter "n" 1] (after_acquire w)
                     [go_nil]
                     (mkWorld (Session.counterUpdate "n" 1
                                 (Session.lookupCounter "n" (Session.acquire fresh)))
                              [Some context_Canceled; Some context_Canceled])
                     ([Called (getCounterLocked "n") "n";
                       Called (Counter_Update "n" 1) tt] ++ [])).
  { eapply ran_cons; [reflexivity | apply ran_nil]. }
  destruct (H "b" [HookAction_Counter "n" 1] [HookAction_SetResponse R1] _ _ _
              (Some context_Canceled) context_Canceled [] eq_refl Hran eq_refl)
    as (_ & Hlock & Ht & Hr).
  split; [exact Hlock |]. split; [exact Hr | exact Ht].
Defined.


(** Scenario S4: the two invocations return their responses, and at most
    one run-state holds the slot at the end of the moves. *)
Lemma run_slot_exclusive_witness :
  Forall (fun l => Pool.is_Fail l = false) handshake /\
  match Pool.steps handshake
          (Pool.start fresh ((fun r => Run r.1.1 r.1.2 r.2) <$> rendezvous_runs))
  with
  | Some p =>
      (Pool.active p <= 1)%nat /\
      Pool.returned <$> Pool.threads p
      = [Some (go_AnyPtr Ra, None); Some (go_AnyPtr Rb, None)]
  | None => False
  end.
Proof.
  assert (Hls : Forall (fun l => Pool.is_Fail l = false) handshake)
    by (repeat constructor).
  split; [exact Hls |].
  destruct (Pool.steps handshake
              (Pool.start fresh ((fun r => Run r.1.1 r.1.2 r.2) <$> rendezvous_runs)))
    as [p |] eqn:E.
  - split.
    + exact (proj1 (run_slot_exclusive fresh rendezvous_runs handshake p Hls E)).
    + vm_compute in E. injection E as <-. reflexivity.
  - vm_compute in E. discriminate E.
Defined.
End Witness.

(** * Further properties of the interpreter *)

(** ** Results that hold whatever the calls return *)

Lemma always_bind {A B : Type} (Q : A -> Prop) (P : B -> Prop) (m : Prog A)
    (f : A -> Prog B) :
  always Q m -> (forall a, Q a -> always P (f a)) -> always P (m ≫= f).
Proof.
  intros Hm Hf. induction m as [a | c k IH].
  - apply Hf, Hm.
  - change (Do c k ≫= f) with (Do c (fun r => k r ≫= f)).
    intros r. apply IH, Hm.
Qed.

Lemma always_mono {A : Type} (P Q : A -> Prop) (p : Prog A) :
  (forall a, P a -> Q a) -> always P p -> always Q p.
Proof.
  intros HPQ. induction p as [a | c k IH]; cbn.
  - apply HPQ.
  - intros H r. apply IH, H.
Qed.

Lemma always_True {A : Type} (p : Prog A) : always (fun _ => True) p.
Proof. induction p as [a | c k IH]; cbn; auto. Qed.

Lemma always_exec {A : Type} (P : A -> Prop) (p : Prog A) (w : World) :
  always P p -> P (exec p w).1.1.
Proof.
  revert w. induction p as [a | c k IH]; intros w H.
  - exact H.
  - cbn [exec]. destruct (serve c w) as [r w1]. specialize (IH r w1 (H r)).
    destruct (exec (k r) w1) as [[a w2] t]. exact IH.
Qed.

Lemma outcome_of_incl (vs vs' : list (option Any)) (r : iface * option error) :
  (forall v, In v vs -> In v vs') -> outcome_of vs r -> outcome_of vs' r.
Proof.
  intros Hin [H | [(v & Hv & H) | H]].
  - left. exact H.
  - right. left. exists v. split; [apply Hin, Hv | exact H].
  - right. right. exact H.
Qed.

Section Outcomes.
Context {L : Libraries}.

(** The loop of [runActions]: the response it has remembered is nil or one
    of the payloads [vs0], and so is what it returns, with the payloads of
    the actions still to run. *)
Lemma loop_outcome (f : HookAction -> Prog (iface * option error))
    (acts : list HookAction) (vs0 : list (option Any)) (acc : iface) :
  Forall (fun a => always (outcome_of (payloads a)) (f a)) acts ->
  outcome_of vs0 (acc, None) ->
  always (outcome_of (vs0 ++ List.flat_map payloads acts))
         (runActions_loop f acc acts).
Proof.
  intros H. revert vs0 acc.
  induction H as [| a rest Ha _ IH]; intros vs0 acc Hacc.
  - cbn. rewrite app_nil_r. exact Hacc.
  - cbn [runActions_loop List.flat_map].
    apply (always_bind (outcome_of (payloads a))); [exact Ha |].
    intros [resp [e |]] Hr.
    + right. right. exists e. reflexivity.
    + rewrite app_assoc. apply IH.
      destruct Hr as [Hr | [(v & Hv & Hr) | (e & Hr)]].
      * injection Hr as ->. cbn [is_nil].
        eapply outcome_of_incl; [| exact Hacc].
        intros v Hv. apply in_or_app. left. exact Hv.
      * injection Hr as ->. cbn [is_nil]. right. left. exists v.
        split; [apply in_or_app; right; exact Hv | reflexivity].
      * discriminate Hr.
Qed.

Lemma action_outcome (s : runState) (ctx : Context) (req : iface)
    (a : HookAction) :
  always (outcome_of (payloads a)) (runAction s ctx req a).
Proof.
  induction a as [c m n IHm IHn | id d | id | id all | v | c m d | ]
    using HookAction_nested_ind; cbn [runAction payloads].
  - unfold runAction_If_with.
    apply (always_bind (fun _ => True)); [apply always_True |].
    intros [ok [e |]] _.
    + right. right. exists e. reflexivity.
    + destruct ok.
      * eapply always_mono;
          [| apply (loop_outcome _ m [] go_nil IHm); left; reflexivity].
        intros r. apply outcome_of_incl. intros v Hv.
        apply in_or_app. left. exact Hv.
      * eapply always_mono;
          [| apply (loop_outcome _ n [] go_nil IHn); left; reflexivity].
        intros r. apply outcome_of_incl. intros v Hv.
        apply in_or_app. right. exact Hv.
  - intros r1 r2. left. reflexivity.
  - intros r1 r2 r3 [e |]; [right; right; exists e |left]; reflexivity.
  - destruct all; intros r1 r2; left; reflexivity.
  - right. left. exists v. split; [left |]; reflexivity.
  - unfold runAction_ReturnError. cbn.
    destruct (status.Err _) as [e |]; [right; right; exists e | left];
      reflexivity.
  - right. right. eexists. reflexivity.
Qed.

(** X2.  Whatever the session, the counters, the barriers and the libraries
    answer, an action list returns one of three things: a nil response and no
    error; the payload of one of its [SetResponse] actions and no error; or an
    error with a nil response.  It never returns a response together with an
    error, and a list without [SetResponse] never returns a response. *)
Theorem runActions_outcome (s : runState) (ctx : Context) (req : iface)
    (acts : list HookAction) :
  always (outcome_of (List.flat_map payloads acts)) (runActions s ctx req acts) /\
  (forall w : World,
      let r := (exec (runActions s ctx req acts) w).1.1 in
      outcome_of (List.flat_map payloads acts) r /\
      (r.2 <> None -> r.1 = go_nil) /\
      (List.flat_map payloads acts = [] -> r.1 = go_nil)).
Proof.
  assert (H : always (outcome_of (List.flat_map payloads acts))
                     (runActions s ctx req acts)).
  { apply (loop_outcome _ acts [] go_nil); [| left; reflexivity].
    apply Forall_forall. intros a _. apply action_outcome. }
  split; [exact H |].
  intros w r. pose proof (always_exec _ _ w H) as Hr. fold r in Hr.
  split; [exact Hr |]. split.
  - intros Hne. destruct Hr as [-> | [(v & _ & ->) | (e & ->)]];
      try reflexivity. cbn in Hne. contradiction.
  - intros Hnil. rewrite Hnil in Hr.
    destruct Hr as [-> | [(v & [] & _) | (e & ->)]]; reflexivity.
Qed.

End Outcomes.

(** ** Which calls the interpreter makes *)

Lemma never_weaken (Q Q' : call -> bool) {A : Type} (p : Prog A) :
  (forall c, Q c = false -> Q' c = false) -> never Q p -> never Q' p.
Proof.
  intros HQ. induction p as [a | c k IH]; cbn; [auto |].
  intros [Hc Hk]. split; [apply HQ, Hc |]. intros r. apply IH, Hk.
Qed.

Lemma never_loop (Q : call -> bool) (f : HookAction -> Prog (iface * option error))
    (acc : iface) (actions : list HookAction) :
  Forall (fun a => never Q (f a)) actions ->
  never Q (runActions_loop f acc actions).
Proof.
  intros H. revert acc. induction H as [| a rest Ha _ IH]; intros acc; [exact I |].
  cbn [runActions_loop].
  apply never_bind; [exact Ha |].
  intros [resp [e |]]; [exact I | apply IH].
Qed.

Lemma filter_never (Q : call -> bool) (t : list event) :
  Forall (fun e => Q (call_of e) = false) t ->
  List.filter (fun e => Q (call_of e)) t = [].
Proof.
  induction 1 as [| e t He _ IH]; [reflexivity |].
  cbn [List.filter]. rewrite He. exact IH.
Qed.

(** A relation between worlds that every call outside [Q] keeps is kept by
    a program that makes no call in [Q]. *)
Lemma never_keeps (Q : call -> bool) (Rel : World -> World -> Prop)
    {A : Type} (p : Prog A) :
  (forall w, Rel w w) ->
  (forall w1 w2 w3, Rel w1 w2 -> Rel w2 w3 -> Rel w1 w3) ->
  (forall c w, Q c = false -> Rel w (serve c w).2) ->
  never Q p -> forall w, Rel w (exec p w).1.2.
Proof.
  intros Hrefl Htrans Hstep. induction p as [a | c k IH]; intros Hn w.
  - apply Hrefl.
  - destruct Hn as [Hc Hk]. cbn [exec].
    pose proof (Hstep c w Hc) as H1.
    destruct (serve c w) as [r w1]. cbn [snd] in H1.
    specialize (IH r (Hk r) w1).
    destruct (exec (k r) w1) as [[a w2] t]. cbn [fst snd] in *.
    exact (Htrans _ _ _ H1 IH).
Qed.

Lemma same_values_read (c : call) (w : World) :
  not_counter_read c = false -> same_values w (serve c w).2.
Proof.
  destruct c; cbn; try discriminate; intros _.
  - split; [| repeat split]. intros c. cbn. apply counterGet_lookupCounter.
    unfold Session.lookupCounter. cbn. destruct (counters (session w) !! id); reflexivity.
    unfold Session.lookupCounter. cbn. destruct (counters (session w) !! id); reflexivity.
  - repeat split.
Qed.

Section Reads.
Context {L : Libraries}.

Lemma reads_resolveValueRef ctx req ref :
  never not_counter_read (resolveValueRef ctx req ref).
Proof.
  destruct ref; unfold resolveValueRef, resolveValueRef_JsonValue; never_solve.
Qed.

Lemma reads_checkCondition ctx req cond :
  never not_counter_read (checkCondition ctx req cond).
Proof.
  unfold checkCondition.
  apply never_bind; [apply reads_resolveValueRef |].
  intros [leftVal [e |]]; [exact I |].
  apply never_bind; [apply reads_resolveValueRef |].
  intros [rightVal [e |]]; [exact I |].
  destruct (compare leftVal (Op cond) rightVal) as [ok [e |]]; exact I.
Qed.

Lemma reads_checkConditions ctx req conds :
  never not_counter_read (checkConditions ctx req conds).
Proof.
  induction conds as [| cond rest IH]; [exact I |].
  cbn [checkConditions].
  apply never_bind; [apply reads_checkCondition |].
  intros [ok [e |]]; [exact I |]. destruct ok; [exact IH | exact I].
Qed.

(** X3.  Evaluating a list of conditions only reads: every call it makes is
    a [GetCounter] or a [Counter.Get], whatever these return; it makes no
    call on the run-slot, on a barrier or to the handler and updates no
    counter.  In the session this leaves every counter with the value it
    had, and the barriers, the run-slot and the outcomes in store as they
    were. *)
Theorem checkConditions_only_reads (ctx : Context) (req : iface)
    (conds : list HookCondition) :
  never not_counter_read (checkConditions ctx req conds) /\
  (forall w : World,
      Forall (fun e => is_counter_read (call_of e) = true)
             (exec (checkConditions ctx req conds) w).2 /\
      same_values w (exec (checkConditions ctx req conds) w).1.2).
Proof.
  pose proof (reads_checkConditions ctx req conds) as H.
  split; [exact H |]. intros w. split.
  - eapply Forall_impl; [apply (never_exec _ _ w H) |].
    intros e He. unfold not_counter_read in He.
    apply negb_false_iff in He. exact He.
  - apply (never_keeps not_counter_read same_values); [| | | exact H].
    + intros w0. repeat split.
    + intros w1 w2 w3 (Ha & Hb & Hc & Hd) (Ha' & Hb' & Hc' & Hd').
      split; [| repeat split; congruence].
      intros c. rewrite Ha'. apply Ha.
    + apply same_values_read.
Qed.

End Reads.

Section Slot.
Context {L : Libraries}.

Lemma existsb_false_Forall {A : Type} (f : A -> bool) (l : list A) :
  existsb f l = false -> Forall (fun a => f a = false) l.
Proof.
  induction l as [| a l IH]; cbn; [constructor |].
  intros H. apply orb_false_iff in H as [Ha Hl]. constructor; auto.
Qed.

Lemma no_wait_runAction (s : runState) (ctx : Context) (req : iface)
    (a : HookAction) :
  waits a = false -> never is_slot_call (runAction s ctx req a).
Proof.
  induction a as [c m n IHm IHn | id d | id | id all | v | c m d | ]
    using HookAction_nested_ind; cbn [runAction waits]; intros Hw.
  - apply orb_false_iff in Hw as [Hm Hn].
    apply existsb_false_Forall in Hm, Hn.
    unfold runAction_If_with.
    apply never_bind.
    { apply (never_weaken not_counter_read); [| apply reads_checkConditions].
      intros [] ; cbn; congruence. }
    intros [ok [e |]]; [exact I |].
    destruct ok; apply never_loop.
    + rewrite Forall_forall in *. intros a Ha. apply (IHm a Ha), (Hm a Ha).
    + rewrite Forall_forall in *. intros a Ha. apply (IHn a Ha), (Hn a Ha).
  - never_solve.
  - discriminate Hw.
  - destruct all; never_solve.
  - never_solve.
  - never_solve.
  - never_solve.
Qed.

(** X4.  The run-slot is given up only to wait.  An action list without a
    [WaitOnBarrier], at any depth, calls neither [acquireRunLock],
    [releaseRunLock] nor [Barrier.Wait], whatever its calls return; so a [Run]
    of such a hook that acquires the slot makes exactly two calls on the slot,
    the acquisition before the first action and the release after the last,
    and never blocks in between. *)
Theorem Run_holds_slot_without_wait (s : runState) (ctx : Context) (req : iface) :
  existsb waits (Actions (RunHook s)) = false ->
  never is_slot_call (runActions s ctx req (Actions (RunHook s))) /\
  (forall w : World,
      (next_outcome (pending w)).1 = None ->
      slot_calls (exec (Run s ctx req) w).2
      = [acquireRunLock ctx; releaseRunLock]).
Proof.
  intros Hw.
  assert (Hn : never is_slot_call (runActions s ctx req (Actions (RunHook s)))).
  { apply never_loop. apply existsb_false_Forall in Hw.
    rewrite Forall_forall in *. intros a Ha.
    apply no_wait_runAction, (Hw a Ha). }
  split; [exact Hn |]. intros w Hacq.
  pose proof (filter_never is_slot_call _
                (never_exec is_slot_call _ (after_acquire w) Hn)) as Hf.
  rewrite (exec_Run_acquired s ctx req w Hacq).
  destruct (exec (runActions s ctx req (Actions (RunHook s))) (after_acquire w))
    as [[out w1] t1].
  cbn [snd] in Hf. unfold slot_calls.
  destruct (is_nil out.1 && is_nil_error out.2); cbn [snd].
  - change (Called (acquireRunLock ctx) None :: t1 ++ [Called releaseRunLock tt])
      with ([Called (acquireRunLock ctx) None] ++ t1 ++ [Called releaseRunLock tt]).
    rewrite !List.filter_app, Hf. reflexivity.
  - change (Called (acquireRunLock ctx) None :: t1 ++ [Called releaseRunLock tt])
      with ([Called (acquireRunLock ctx) None] ++ t1 ++ [Called releaseRunLock tt]).
    rewrite !List.filter_app, Hf. reflexivity.
Qed.

End Slot.

(** ** Hooks of plain actions *)

Section Plain.
Context {L : Libraries}.

Lemma plain_runAction (s : runState) (ctx : Context) (req : iface)
    (a : HookAction) :
  plain a = true ->
  always (fun r => r = (response_of a, None)) (runAction s ctx req a).
Proof.
  destruct a as [c m n | id d | id | id all | v | c m d | ]; try discriminate;
    intros _; cbn.
  - intros r1 r2. reflexivity.
  - destruct all; intros r1 r2; reflexivity.
  - reflexivity.
Qed.

Lemma plain_loop (s : runState) (ctx : Context) (req : iface)
    (acts : list HookAction) (acc : iface) :
  forallb plain acts = true ->
  always (fun r => r = (default acc
                          (last (List.filter (fun r => negb (is_nil r))
                                             (response_of <$> acts))), None))
         (runActions_loop (runAction s ctx req) acc acts).
Proof.
  revert acc. induction acts as [| a rest IH]; intros acc Hp.
  - reflexivity.
  - cbn [forallb] in Hp. apply andb_true_iff in Hp as [Ha Hrest].
    cbn [runActions_loop].
    apply (always_bind (fun r => r = (response_of a, None)));
      [apply plain_runAction, Ha |].
    intros r ->. rewrite fmap_cons, last_response_cons. apply IH, Hrest.
Qed.

Lemma last_response_SetResponse (acts : list HookAction) (v : option Any) :
  In (HookAction_SetResponse v) acts ->
  is_nil (last_response (response_of <$> acts)) = false.
Proof.
  intros Hin. unfold last_response.
  set (l := List.filter (fun r => negb (is_nil r)) (response_of <$> acts)).
  assert (Hl : In (go_AnyPtr v) l).
  { apply filter_In. split; [| reflexivity].
    apply (in_map response_of _ _ Hin). }
  destruct (last l) as [x |] eqn:Hx.
  - apply last_Some_elem_of, list_elem_of_In in Hx.
    apply filter_In in Hx as [_ Hx]. cbn. apply negb_true_iff, Hx.
  - apply last_None in Hx. rewrite Hx in Hl. destruct Hl.
Qed.

(** X5.  A hook made of [Counter], [SignalBarrier] and [SetResponse]
    actions only cannot fail: whatever the session answers, its action list
    returns the payload of its last [SetResponse] and no error, or a nil
    response when it has none.  A [Run] that acquires the slot then returns
    that payload without invoking the handler, or, when the hook sets no
    response, invokes the handler once and returns its result.  A
    [SetResponse] whose value is a nil pointer counts as a response: the
    interface that holds it is not nil, and the handler is not invoked. *)
Theorem Run_plain_hook (s : runState) (ctx : Context) (req : iface) :
  forallb plain (Actions (RunHook s)) = true ->
  let resp := last_response (response_of <$> Actions (RunHook s)) in
  always (fun r => r = (resp, None))
         (runActions s ctx req (Actions (RunHook s))) /\
  (forall w : World,
      (next_outcome (pending w)).1 = None ->
      (exec (Run s ctx req) w).1.1
      = (if is_nil resp then Handler s ctx req else (resp, None)) /\
      handler_calls (exec (Run s ctx req) w).2
      = (if is_nil resp then 1 else 0)%nat) /\
  (forall v : option Any,
      In (HookAction_SetResponse v) (Actions (RunHook s)) ->
      is_nil resp = false).
Proof.
  intros Hp resp.
  assert (Hlast : forall v : option Any,
             In (HookAction_SetResponse v) (Actions (RunHook s)) ->
             is_nil resp = false).
  { intros v. apply last_response_SetResponse. }
  pose proof (plain_loop s ctx req _ go_nil Hp) as Hal.
  fold (runActions s ctx req (Actions (RunHook s))) in Hal.
  change (default go_nil _) with resp in Hal.
  split; [exact Hal |]. split; [| exact Hlast]. intros w Hacq.
  pose proof (always_exec _ _ (after_acquire w) Hal) as Hr.
  pose proof (handler_calls_never _
                (never_exec is_handler _ (after_acquire w)
                   (never_handler_runActions s ctx req (Actions (RunHook s)))))
    as Hno.
  rewrite (exec_Run_acquired s ctx req w Hacq).
  destruct (exec (runActions s ctx req (Actions (RunHook s))) (after_acquire w))
    as [[out w1] t1].
  cbn [fst snd] in Hr, Hno. subst out. cbn [fst snd is_nil_error].
  rewrite andb_true_r.
  destruct (is_nil resp); cbn [fst snd].
  - split; [reflexivity |].
    change (handler_calls (([Called (acquireRunLock ctx) None]
                            ++ t1 ++ [Called releaseRunLock tt])
                           ++ [Called (Handler_call (Handler s) ctx req)
                                      (Handler s ctx req)]) = 1%nat).
    rewrite !handler_calls_app, Hno. reflexivity.
  - split; [reflexivity |].
    change (handler_calls ([Called (acquireRunLock ctx) None]
                           ++ t1 ++ [Called releaseRunLock tt]) = 0%nat).
    rewrite !handler_calls_app, Hno. reflexivity.
Qed.

End Plain.

(** ** Composition of action lists *)

Section Compose.
Context {L : Libraries}.

Lemma carry_carry (acc resp : iface) (r : iface * option error) :
  is_nil resp = false -> carry acc (carry resp r) = carry resp r.
Proof.
  intros Hresp. destruct r as [v [e |]]; unfold carry; cbn [fst snd is_nil_error].
  - rewrite !andb_false_r. reflexivity.
  - rewrite !andb_true_r. destruct (is_nil v) eqn:Hv; cbn [fst snd].
    + rewrite Hresp. reflexivity.
    + rewrite Hv. reflexivity.
Qed.

(** The loop started with a response in hand, from the loop started with
    none. *)
Lemma exec_loop_acc (f : HookAction -> Prog (iface * option error))
    (l : list HookAction) (acc : iface) (w : World) :
  exec (runActions_loop f acc l) w =
  let '(r, w', t) := exec (runActions_loop f go_nil l) w in
  (carry acc r, w', t).
Proof.
  revert acc w. induction l as [| a rest IH]; intros acc w; [reflexivity |].
  rewrite !exec_loop_cons.
  destruct (exec (f a) w) as [[[resp [e |]] w1] t1]; cbn [fst snd];
    [reflexivity |].
  destruct (is_nil resp) eqn:Hresp.
  - rewrite (IH acc w1).
    destruct (exec (runActions_loop f go_nil rest) w1) as [[r w2] t2].
    reflexivity.
  - rewrite (IH resp w1).
    destruct (exec (runActions_loop f go_nil rest) w1) as [[r w2] t2].
    rewrite (carry_carry acc resp r Hresp). reflexivity.
Qed.

Lemma exec_loop_app (f : HookAction -> Prog (iface * option error))
    (l1 l2 : list HookAction) (acc : iface) (w : World) :
  exec (runActions_loop f acc (l1 ++ l2)) w =
  let '(r1, w1, t1) := exec (runActions_loop f acc l1) w in
  match r1.2 with
  | Some _ => (r1, w1, t1)
  | None =>
      let '(r2, w2, t2) := exec (runActions_loop f r1.1 l2) w1 in
      (r2, w2, t1 ++ t2)
  end.
Proof.
  revert acc w. induction l1 as [| a rest IH]; intros acc w.
  - cbn [app runActions_loop exec fst snd].
    destruct (exec (runActions_loop f acc l2) w) as [[r2 w2] t2]. reflexivity.
  - rewrite <- app_comm_cons, !exec_loop_cons.
    destruct (exec (f a) w) as [[[resp [e |]] w1] t1]; cbn [fst snd];
      [reflexivity |].
    rewrite IH.
    destruct (exec (runActions_loop f (if is_nil resp then acc else resp) rest) w1)
      as [[[r1 [e |]] w2] t2]; cbn [fst snd]; [reflexivity |].
    destruct (exec (runActions_loop f r1 l2) w2) as [[r2 w3] t3].
    rewrite app_assoc. reflexivity.
Qed.

(** An error of the loop comes with a nil response, whatever the function
    that runs one action. *)
Lemma exec_loop_error_nil (f : HookAction -> Prog (iface * option error))
    (l : list HookAction) (acc : iface) (w : World) :
  (exec (runActions_loop f acc l) w).1.1.2 <> None ->
  (exec (runActions_loop f acc l) w).1.1.1 = go_nil.
Proof.
  apply (always_exec (fun r => r.2 <> None -> r.1 = go_nil)).
  revert acc. induction l as [| a rest IH]; intros acc.
  - intros H. contradiction H. reflexivity.
  - cbn [runActions_loop].
    apply (always_bind (fun _ => True)); [apply always_True |].
    intros [resp [e |]] _; [intros _; reflexivity | apply IH].
Qed.

(** X6.  Running the concatenation of two action lists is running the first
    and then, when it returns no error, the second in the session the first
    left: an error of the first is the result and the second is not run;
    otherwise the calls are those of the first followed by those of the
    second, an error of the second is the result with a nil response, and the
    response is the one of the second list when it sets one, the one of the
    first otherwise. *)
Theorem runActions_app (s : runState) (ctx : Context) (req : iface)
    (l1 l2 : list HookAction) (w : World) :
  exec (runActions s ctx req (l1 ++ l2)) w =
  let '(r1, w1, t1) := exec (runActions s ctx req l1) w in
  match r1.2 with
  | Some _ => (r1, w1, t1)
  | None =>
      let '(r2, w2, t2) := exec (runActions s ctx req l2) w1 in
      (carry r1.1 r2, w2, t1 ++ t2)
  end.
Proof.
  unfold runActions. rewrite exec_loop_app.
  destruct (exec (runActions_loop (runAction s ctx req) go_nil l1) w)
    as [[[r1 [e |]] w1] t1]; cbn [fst snd]; [reflexivity |].
  rewrite (exec_loop_acc _ l2 r1 w1).
  destruct (exec (runActions_loop (runAction s ctx req) go_nil l2) w1)
    as [[r2 w2] t2].
  reflexivity.
Qed.

(** X7.  An [If] action behaves as if the branch it takes were written in
    its place: when its conditions evaluate without error, the action list
    [If conds m n :: post] returns what the list [m ++ post] (conditions
    true) or [n ++ post] (conditions false) returns in the session the
    conditions left, with the same calls after those of the conditions; when
    the conditions fail, their error is the result and nothing else runs. *)
Theorem If_branch_inlined (s : runState) (ctx : Context) (req : iface)
    (conds : list HookCondition) (m n post : list HookAction) (w : World) :
  exec (runActions s ctx req (HookAction_If conds m n :: post)) w =
  let '(c, w1, t1) := exec (checkConditions ctx req conds) w in
  match c.2 with
  | Some e => ((go_nil, Some e), w1, t1)
  | None =>
      let '(r, w2, t2) :=
        exec (runActions s ctx req ((if c.1 then m else n) ++ post)) w1 in
      (r, w2, t1 ++ t2)
  end.
Proof.
  unfold runActions at 1. rewrite exec_loop_cons, exec_runAction_If.
  destruct (exec (checkConditions ctx req conds) w) as [[[ok [e |]] w1] t1];
    cbn [fst snd]; [reflexivity |].
  unfold runActions. rewrite exec_loop_app.
  destruct (exec (runActions_loop (runAction s ctx req) go_nil
                    (if ok then m else n)) w1)
    as [[[rb [e |]] w2] t2] eqn:Hb; cbn [fst snd].
  { pose proof (exec_loop_error_nil (runAction s ctx req)
                  (if ok then m else n) go_nil w1) as Hnil.
    rewrite Hb in Hnil. cbn [fst snd] in Hnil. rewrite Hnil; [reflexivity |].
    discriminate. }
  replace (if is_nil rb then go_nil else rb) with rb by (destruct rb; reflexivity).
  destruct (exec (runActions_loop (runAction s ctx req) rb post) w2)
    as [[r3 w3] t3].
  rewrite app_assoc. reflexivity.
Qed.

End Compose.

(** ** Conditions on a request field *)

Section RequestField.
Context {L : Libraries}.

Lemma always_never_bind (Q : call -> bool) {A B : Type} (P : A -> Prop)
    (m : Prog A) (f : A -> Prog B) :
  always P m -> never Q m -> (forall a, P a -> never Q (f a)) ->
  never Q (m ≫= f).
Proof.
  intros Ha Hn Hf. induction m as [a | c k IH].
  - apply Hf, Ha.
  - destruct Hn as [Hc Hk]. split; [exact Hc |].
    intros r. apply IH; [apply Ha | apply Hk].
Qed.

Lemma RequestField_checkCondition (ctx : Context) (req : iface)
    (c : HookCondition) (path : string) :
  Left c = ValueRef_RequestField path \/ Right c = ValueRef_RequestField path ->
  always (fun r => r.1 = false /\ r.2 <> None) (checkCondition ctx req c).
Proof.
  intros Hc. unfold checkCondition.
  apply (always_bind (fun r => Left c = ValueRef_RequestField path -> r.2 <> None)).
  { destruct (Left c) as [id | p | text |]; cbn.
    - intros r1 r2 H. discriminate H.
    - intros _. discriminate.
    - unfold resolveValueRef_JsonValue.
      destruct (json_Unmarshal text); cbn; intros H; discriminate H.
    - intros H. discriminate H. }
  intros [leftVal [e |]] Hl; [split; [reflexivity | discriminate] |].
  destruct Hc as [Hc | Hc]; [contradiction (Hl Hc); reflexivity |].
  rewrite Hc. cbn. split; [reflexivity | discriminate].
Qed.

(** X8.  Request fields are not implemented: a condition with a
    [RequestField] on either side never evaluates to true or false.  With it
    on the left the condition returns the error "unimplemented request field
    query" without resolving its right side and without any call; with it on
    the right the condition returns an error whatever the left side is.  An
    [If] whose first condition is such a condition runs neither branch: it
    returns an error and a nil response after reading at most counters, and a
    hook that starts with it returns that error from [Run] without the handler
    being invoked. *)
Theorem RequestField_unimplemented (s : runState) (ctx : Context) (req : iface)
    (c : HookCondition) (path : string) :
  Left c = ValueRef_RequestField path \/ Right c = ValueRef_RequestField path ->
  (Left c = ValueRef_RequestField path ->
   checkCondition ctx req c
   = Ret (false, Some (errors_New "unimplemented request field query"))) /\
  always (fun r => r.1 = false /\ r.2 <> None) (checkCondition ctx req c) /\
  (forall (rest : list HookCondition) (m n : list HookAction),
      always (fun r => r.1 = go_nil /\ r.2 <> None)
             (runAction s ctx req (HookAction_If (c :: rest) m n)) /\
      never not_counter_read
            (runAction s ctx req (HookAction_If (c :: rest) m n))) /\
  (forall (rest : list HookCondition) (m n post : list HookAction) (w : World),
      Actions (RunHook s) = HookAction_If (c :: rest) m n :: post ->
      (next_outcome (pending w)).1 = None ->
      (exists e, (exec (Run s ctx req) w).1.1 = (go_nil, Some e)) /\
      handler_calls (exec (Run s ctx req) w).2 = 0%nat).
Proof.
  intros Hc.
  pose proof (RequestField_checkCondition ctx req c path Hc) as Hcond.
  assert (Hconds : forall rest,
             always (fun r => r.2 <> None) (checkConditions ctx req (c :: rest))).
  { intros rest. cbn [checkConditions].
    apply (always_bind (fun r => r.1 = false /\ r.2 <> None)); [exact Hcond |].
    intros [ok [e |]] [_ He]; [discriminate | contradiction He; reflexivity]. }
  assert (Hif : forall rest m n,
             always (fun r => r.1 = go_nil /\ r.2 <> None)
                    (runAction s ctx req (HookAction_If (c :: rest) m n))).
  { intros rest m n. cbn [runAction]. unfold runAction_If_with.
    apply (always_bind (fun r => r.2 <> None)); [apply Hconds |].
    intros [ok [e |]] He; [split; [reflexivity | discriminate] |].
    contradiction He; reflexivity. }
  split; [| split; [exact Hcond | split]].
  - intros Hl. unfold checkCondition. rewrite Hl. reflexivity.
  - intros rest m n. split; [apply Hif |].
    cbn [runAction]. unfold runAction_If_with.
    apply (always_never_bind _ (fun r => r.2 <> None));
      [apply Hconds | apply reads_checkConditions |].
    intros [ok [e |]] He; [exact I | contradiction He; reflexivity].
  - intros rest m n post w Hacts Hacq.
    assert (Hall : always (fun r => r.1 = go_nil /\ r.2 <> None)
                          (runActions s ctx req (Actions (RunHook s)))).
    { rewrite Hacts. unfold runActions. cbn [runActions_loop].
      apply (always_bind (fun r => r.1 = go_nil /\ r.2 <> None)); [apply Hif |].
      intros [resp [e |]] [_ He]; [split; [reflexivity | discriminate] |].
      contradiction He; reflexivity. }
    pose proof (always_exec _ _ (after_acquire w) Hall) as Hr.
    destruct (exec (runActions s ctx req (Actions (RunHook s))) (after_acquire w))
      as [[[resp [e |]] w1] t1] eqn:Hout; cbn [fst snd] in Hr;
      [| destruct Hr as [_ Hr]; contradiction Hr; reflexivity].
    destruct Hr as [-> _].
    destruct (Run_aborts s ctx req w w1 t1 go_nil e Hacq Hout) as [Hrun Hno].
    split; [| exact Hno]. exists e. rewrite Hrun. reflexivity.
Qed.

End RequestField.

(** ** The status of [ReturnError] *)

Section ReturnError.
Context {L : Libraries}.

Lemma pack_all_Some (details packed : list Any) :
  pack_all details = Some packed ->
  Forall2 (fun d p => anypb_New d = inl p) details packed.
Proof.
  revert packed. induction details as [| d ds IH]; intros packed H.
  - injection H as <-. constructor.
  - unfold pack_all in H. cbn in H.
    destruct (anypb_New d) as [p | e] eqn:Hd; [| discriminate].
    cbn in H. fold (pack_all ds) in H.
    destruct (pack_all ds) as [ps |]; [| discriminate].
    injection H as <-. constructor; [exact Hd | apply IH; reflexivity].
Qed.

Lemma pack_all_None (details : list Any) :
  pack_all details = None ->
  exists d e, d ∈ details /\ anypb_New d = inr e.
Proof.
  induction details as [| d ds IH]; intros H; [discriminate |].
  unfold pack_all in H. cbn in H.
  destruct (anypb_New d) as [p | e] eqn:Hd.
  - cbn in H. fold (pack_all ds) in H.
    destruct (pack_all ds) as [ps |]; [discriminate |].
    destruct (IH eq_refl) as (d' & e' & Hin & Hd').
    exists d', e'. split; [right; exact Hin | exact Hd'].
  - exists d, e. split; [left | exact Hd].
Qed.

Lemma attach_OK (details : list Any) (st : Status) :
  StatusCode st = codes.OK ->
  status.Err (fold_left (fun st detail => (status.WithDetails anypb_New st detail).1)
                        details (Some st)) = None.
Proof.
  intros Hok. destruct details as [| d ds].
  - cbn. unfold status.Err. cbn. rewrite Hok. reflexivity.
  - cbn [fold_left]. unfold status.WithDetails at 2. cbn [status.Code].
    rewrite Hok. cbn. rewrite attach_nil. reflexivity.
Qed.

Lemma exec_loop_skip (f : HookAction -> Prog (iface * option error))
    (a : HookAction) (pre post : list HookAction) (acc : iface) (w : World) :
  f a = Ret (go_nil, None) ->
  exec (runActions_loop f acc (pre ++ a :: post)) w
  = exec (runActions_loop f acc (pre ++ post)) w.
Proof.
  intros Ha. rewrite !exec_loop_app.
  destruct (exec (runActions_loop f acc pre) w) as [[[r1 [e |]] w1] t1];
    cbn [fst snd]; [reflexivity |].
  cbn [runActions_loop]. rewrite Ha. reflexivity.
Qed.

(** X9.  What [ReturnError] returns.  The action returns the error of the
    status (code, message, packed details) exactly when the code is not OK
    and every detail packs; when the code is OK, or some detail does not
    pack, it returns neither a response nor an error.  In the second case the
    action does nothing at all: an action list containing it behaves, in every
    session, as the list without it, so the actions after it run and the
    handler may be invoked. *)
Theorem ReturnError_result (ctx : Context) (req : iface) (code : Z)
    (message : string) (details : list Any) :
  let err :=
    match pack_all details with
    | Some packed =>
        if codes.Code code =? codes.OK then None
        else Some (status_Error (mkStatus (codes.Code code) message packed))
    | None => None
    end in
  runAction_ReturnError ctx req code message details = Ret (go_nil, err) /\
  (err = None ->
   forall (s : runState) (pre post : list HookAction) (w : World),
     exec (runActions s ctx req
             (pre ++ HookAction_ReturnError code message details :: post)) w
     = exec (runActions s ctx req (pre ++ post)) w).
Proof.
  intros err.
  assert (H : runAction_ReturnError ctx req code message details
              = Ret (go_nil, err)).
  { subst err. destruct (pack_all details) as [packed |] eqn:Hp.
    - destruct (codes.Code code =? codes.OK) eqn:Hc.
      + unfold runAction_ReturnError. cbv zeta. f_equal. f_equal.
        apply attach_OK. cbn. apply Z.eqb_eq, Hc.
      + apply ReturnError_details_attached;
          [apply Z.eqb_neq, Hc | apply pack_all_Some, Hp].
    - destruct (pack_all_None details Hp) as (d & e & Hin & Hd).
      unfold runAction_ReturnError. cbv zeta.
      rewrite (attach_failure details d e _ Hin Hd). reflexivity. }
  split; [exact H |].
  intros Herr s pre post w. unfold runActions.
  apply exec_loop_skip. cbn [runAction]. rewrite H, Herr. reflexivity.
Qed.

End ReturnError.

(** ** Conditions: conjunction and complement *)

Section Conditions.
Context {L : Libraries}.

Lemma compare_negate (left right : iface) (op op' : ComparisonOperator) :
  negate op = Some op' ->
  compare left op' right =
  (match (compare left op right).2 with
   | None => negb (compare left op right).1
   | Some _ => false
   end, (compare left op right).2).
Proof.
  intros H. unfold compare.
  destruct (govalcmp_Compare left right) as [d | e]; [| reflexivity].
  destruct op; cbn in H; try discriminate H; injection H as <-; cbn [fst snd];
    f_equal.
  - rewrite Z.gtb_ltb. apply Z.leb_antisym.
  - rewrite Z.geb_leb, Z.leb_antisym, negb_involutive. reflexivity.
  - rewrite Z.geb_leb. apply Z.leb_antisym.
  - rewrite Z.gtb_ltb, Z.leb_antisym, negb_involutive. reflexivity.
Qed.

Lemma exec_checkCondition_negate (ctx : Context) (req : iface)
    (left right : ValueRef) (op op' : ComparisonOperator) (w : World) :
  negate op = Some op' ->
  exec (checkCondition ctx req (mkCond left op' right)) w =
  let '(r, w1, t1) := exec (checkCondition ctx req (mkCond left op right)) w in
  ((match r.2 with None => negb r.1 | Some _ => false end, r.2), w1, t1).
Proof.
  intros H. unfold checkCondition. cbn [Left Right Op].
  rewrite !exec_bind.
  destruct (exec (resolveValueRef ctx req left) w) as [[[lv [e |]] w1] t1];
    [reflexivity |].
  rewrite !exec_bind.
  destruct (exec (resolveValueRef ctx req right) w1) as [[[rv [e |]] w2] t2];
    [reflexivity |].
  rewrite (compare_negate lv rv op op' H).
  destruct (compare lv op rv) as [ok [e |]]; reflexivity.
Qed.

(** X10.  The order operators come in complementary pairs (less than with
    greater than or equal, greater than with less than or equal): on the same
    operands one holds exactly when the other does not, and both return the
    same error when the operands do not compare.  So an [If] on one condition
    is the [If] on the complementary operator with its branches exchanged:
    the two return the same result, leave the same session and make the same
    calls. *)
Theorem If_negated_operator (s : runState) (ctx : Context) (req : iface)
    (left right : ValueRef) (op op' : ComparisonOperator)
    (m n : list HookAction) (w : World) :
  negate op = Some op' ->
  exec (runAction s ctx req (HookAction_If [mkCond left op right] m n)) w
  = exec (runAction s ctx req (HookAction_If [mkCond left op' right] n m)) w.
Proof.
  intros H. rewrite !exec_runAction_If, !exec_checkConditions_cons.
  rewrite (exec_checkCondition_negate ctx req left right op op' w H).
  destruct (exec (checkCondition ctx req (mkCond left op right)) w)
    as [[[ok [e |]] w1] t1]; cbn [fst snd]; [reflexivity |].
  destruct ok; cbn [negb exec checkConditions fst snd]; rewrite ?app_nil_r;
    reflexivity.
Qed.

Lemma exec_checkConditions_app (ctx : Context) (req : iface)
    (l1 l2 : list HookCondition) (w : World) :
  exec (checkConditions ctx req (l1 ++ l2)) w =
  let '(r1, w1, t1) := exec (checkConditions ctx req l1) w in
  match r1 with
  | (true, None) =>
      let '(r2, w2, t2) := exec (checkConditions ctx req l2) w1 in
      (r2, w2, t1 ++ t2)
  | _ => (r1, w1, t1)
  end.
Proof.
  revert w. induction l1 as [| c rest IH]; intros w.
  - cbn [app checkConditions exec].
    destruct (exec (checkConditions ctx req l2) w) as [[r2 w2] t2]. reflexivity.
  - rewrite <- app_comm_cons, !exec_checkConditions_cons.
    destruct (exec (checkCondition ctx req c) w) as [[[ok [e |]] w1] t1];
      cbn [fst snd]; [reflexivity |].
    destruct ok; [| reflexivity].
    rewrite IH.
    destruct (exec (checkConditions ctx req rest) w1) as [[[ok [e |]] w2] t2];
      [destruct ok; reflexivity |].
    destruct ok; [| reflexivity].
    destruct (exec (checkConditions ctx req l2) w2) as [[r2 w3] t3].
    rewrite app_assoc. reflexivity.
Qed.

(** What a list of conditions returns with an error is false. *)
Lemma exec_checkConditions_error (ctx : Context) (req : iface)
    (l : list HookCondition) (w : World) :
  (exec (checkConditions ctx req l) w).1.1.2 <> None ->
  (exec (checkConditions ctx req l) w).1.1.1 = false.
Proof.
  apply (always_exec (fun r => r.2 <> None -> r.1 = false)).
  induction l as [| c rest IH].
  - intros H. contradiction H. reflexivity.
  - cbn [checkConditions].
    apply (always_bind (fun _ => True)); [apply always_True |].
    intros [ok [e |]] _; [intros _; reflexivity |].
    destruct ok; [exact IH | intros _; reflexivity].
Qed.

(** X11.  A list of conditions is their conjunction, evaluated from the
    left, and conjunction is nesting: an [If] on the conditions [l1 ++ l2]
    returns the same result, leaves the same session and makes the same calls
    as the [If] on [l1] whose match branch is the [If] on [l2] with the same
    two branches, and whose no-match branch is the same. *)
Theorem If_conjunction_nested (s : runState) (ctx : Context) (req : iface)
    (l1 l2 : list HookCondition) (m n : list HookAction) (w : World) :
  exec (runAction s ctx req (HookAction_If (l1 ++ l2) m n)) w
  = exec (runAction s ctx req (HookAction_If l1 [HookAction_If l2 m n] n)) w.
Proof.
  rewrite !exec_runAction_If, exec_checkConditions_app.
  pose proof (exec_checkConditions_error ctx req l1 w) as Herr.
  destruct (exec (checkConditions ctx req l1) w) as [[[ok [e |]] w1] t1];
    cbn [fst snd] in *.
  - rewrite Herr by discriminate. destruct ok; reflexivity.
  - destruct ok; [| reflexivity].
    unfold runActions at 2. rewrite exec_loop_cons, exec_runAction_If.
    destruct (exec (checkConditions ctx req l2) w1) as [[[ok2 [e |]] w2] t2];
      cbn [fst snd]; [reflexivity |].
    pose proof (exec_loop_error_nil (runAction s ctx req)
                  (if ok2 then m else n) go_nil w2) as Hnil.
    unfold runActions.
    destruct (exec (runActions_loop (runAction s ctx req) go_nil
                      (if ok2 then m else n)) w2)
      as [[[rb [e |]] w3] t3]; cbn [fst snd] in *.
    + rewrite Hnil by discriminate. rewrite app_assoc. reflexivity.
    + cbn [runActions_loop exec]. rewrite app_nil_r, app_assoc.
      destruct rb; reflexivity.
Qed.

End Conditions.

(** ** The error handler: attaching details to a status *)

Section ErrorHandler.

Variable Message : Type.
Variable pack : Message -> Any + error.

Lemma pack_details_Forall2 (details : list Message) (packed : list Any) :
  server_v1.pack_details Message pack details = inl packed <->
  Forall2 (fun d p => pack d = inl p) details packed.
Proof.
  revert packed. induction details as [| d ds IH]; intros packed.
  - cbn. split.
    + intros H. injection H as <-. constructor.
    + intros H. inversion H. reflexivity.
  - cbn [server_v1.pack_details]. split.
    + destruct (pack d) as [p | e] eqn:Hd; [| discriminate].
      destruct (server_v1.pack_details Message pack ds) as [ps | e];
        [| discriminate].
      intros H. injection H as <-. constructor; [exact Hd |].
      apply IH. reflexivity.
    + intros H. inversion H as [| d' p ds' ps Hd Hds]; subst.
      rewrite Hd. apply IH in Hds. rewrite Hds. reflexivity.
Qed.

(** X12.  [tryAttachStatusDetails] never loses the status it is given: the
    result has the code and the message of the argument and is nil only when
    the argument is nil, so its error is nil exactly when the error of the
    argument is.  Its details are those of the argument followed by all the
    packed details, in order, when the code is not OK and every detail packs;
    otherwise the result is the argument itself. *)
Theorem tryAttachStatusDetails_keeps_status (st : option Status)
    (details : list Message) :
  let res := server_v1.tryAttachStatusDetails Message pack st details in
  status.Code res = status.Code st /\
  StatusMessage <$> res = StatusMessage <$> st /\
  (res = None <-> st = None) /\
  (status.Err res = None <-> status.Err st = None) /\
  (forall packed : list Any,
      status.Code st <> codes.OK ->
      Forall2 (fun d p => pack d = inl p) details packed ->
      StatusDetails <$> res = (fun ds => ds ++ packed) <$> (StatusDetails <$> st)) /\
  (status.Code st = codes.OK \/ (exists d e, In d details /\ pack d = inr e) ->
   res = st).
Proof.
  intros res. subst res.
  unfold server_v1.tryAttachStatusDetails, server_v1.WithDetails.
  destruct st as [st |]; cbn [status.Code].
  2: { cbn. repeat split; try reflexivity; try tauto.
       all: intros packed H; contradiction H; reflexivity. }
  destruct (StatusCode st =? codes.OK) eqn:Hc.
  { cbn [is_nil_error status.Code]. repeat split; try reflexivity; try tauto.
    all: intros packed H; apply Z.eqb_eq in Hc; contradiction. }
  apply Z.eqb_neq in Hc.
  destruct (server_v1.pack_details Message pack details) as [ps | e] eqn:Hp;
    cbn [is_nil_error status.Code StatusCode].
  - split; [reflexivity |]. split; [reflexivity |].
    split; [split; discriminate |].
    split.
    { unfold status.Err. cbn [status.Code StatusCode].
      destruct (StatusCode st =? codes.OK); [tauto | split; discriminate]. }
    split.
    + intros packed _ Hall. apply pack_details_Forall2 in Hall.
      rewrite Hp in Hall. injection Hall as ->. reflexivity.
    + intros [Hok | (d & e & Hin & Hd)]; [contradiction |].
      exfalso. clear Hc. revert ps Hp.
      induction details as [| d' ds IH]; intros ps Hp; [destruct Hin |].
      cbn [server_v1.pack_details] in Hp.
      destruct (pack d') as [p | e'] eqn:Hd'; [| discriminate].
      destruct (server_v1.pack_details Message pack ds) as [ps' | e'];
        [| discriminate].
      destruct Hin as [-> | Hin]; [congruence |].
      apply (IH Hin ps'). reflexivity.
  - split; [reflexivity |]. split; [reflexivity |].
    split; [tauto |]. split; [tauto |]. split; [| reflexivity].
    intros packed _ Hall. apply pack_details_Forall2 in Hall.
    rewrite Hp in Hall. discriminate.
Qed.

End ErrorHandler.

(** The call with one detail is the [WithDetails] used by
    [runAction_ReturnError]. *)
Lemma WithDetails_single (pack : Any -> Any + error) (s : option Status)
    (d : Any) :
  server_v1.WithDetails Any pack s [d] = status.WithDetails pack s d.
Proof.
  unfold server_v1.WithDetails, status.WithDetails.
  destruct s as [st |]; cbn [status.Code]; [| reflexivity].
  destruct (StatusCode st =? codes.OK); [reflexivity |].
  cbn [server_v1.pack_details].
  destruct (pack d); reflexivity.
Qed.


(** ** The legacy topology *)

Section Topology.
Import legacytopology.

Lemma assign_ok (n : Z) (left : nat) (vbId : nat) (a : list Z) :
  n <> 0 ->
  (vbId + left <= length a)%nat ->
  exists a', assign n left (Z.of_nat vbId) a = Returned a' /\
    length a' = length a /\
    (forall k, (k < vbId)%nat \/ (vbId + left <= k)%nat -> a' !! k = a !! k) /\
    (forall k, (vbId <= k < vbId + left)%nat ->
               a' !! k = Some (linear n (Z.of_nat k))).
Proof.
  intros Hn. revert vbId a. induction left as [| left IH]; intros vbId a Hlen.
  - exists a. cbn. repeat split; auto. intros k Hk. lia.
  - cbn [assign]. destruct (Z.eqb_spec n 0) as [| _]; [contradiction |].
    rewrite Nat2Z.id.
    replace (Z.of_nat vbId + 1) with (Z.of_nat (S vbId)) by lia.
    destruct (IH (S vbId) (<[vbId := linear n (Z.of_nat vbId)]> a)) as (a' & Ha' & Hl & Hout & Hin).
    { rewrite length_insert. lia. }
    exists a'. split; [exact Ha' |]. rewrite ?length_insert in Hl.
    split; [exact Hl |]. split.
    + intros k Hk. rewrite Hout by lia. apply list_lookup_insert_ne. lia.
    + intros k Hk. destruct (decide (k = vbId)) as [-> | Hne].
      * rewrite Hout by lia. apply list_lookup_insert_eq. lia.
      * apply Hin. lia.
Qed.

Lemma assign_map (n : Z) (N : nat) :
  n <> 0 ->
  assign n N 0 (replicate N 0) = Returned (linear n <$> (Z.of_nat <$> seq 0 N)).
Proof.
  intros Hn.
  destruct (assign_ok n N 0 (replicate N 0) Hn) as (a' & Ha' & Hl & _ & Hin).
  { rewrite length_replicate. lia. }
  change (Z.of_nat 0) with 0 in Ha'. rewrite Ha'. f_equal.
  rewrite length_replicate in Hl.
  apply list_eq. intros k.
  destruct (decide (k < N)%nat) as [Hk | Hk].
  - rewrite Hin by lia. rewrite !list_lookup_fmap, lookup_seq_lt by lia.
    reflexivity.
  - rewrite (lookup_ge_None_2 a') by lia.
    symmetry. apply lookup_ge_None_2. rewrite !length_fmap, length_seq. lia.
Qed.

Lemma linear_lt (n k : Z) : 0 < n -> 0 <= k -> 0 <= linear n k < n.
Proof.
  intros Hn Hk. unfold linear.
  pose proof (Z.mod_pos_bound k n Hn).
  pose proof (Z.mod_pos_bound (k mod n) (2 ^ 32) ltac:(lia)).
  split; [lia |].
  assert ((k mod n) mod 2 ^ 32 <= k mod n); [| lia].
  apply Z.mod_le; lia.
Qed.

(** The vbuckets that the linear assignment gives to the data node [i] of
    [n], out of [N]. *)
Lemma load_linear (n i : Z) (N : nat) :
  0 < n <= 2 ^ 32 -> 0 <= i < n ->
  Z.of_nat (load i (linear n <$> (Z.of_nat <$> seq 0 N)))
  = Z.of_nat N / n + (if i <? Z.of_nat N mod n then 1 else 0).
Proof.
  intros Hn Hi. induction N as [| N IH].
  - cbn. rewrite Z.div_0_l, Z.mod_0_l by lia.
    destruct (Z.ltb_spec i 0); lia.
  - rewrite seq_S, !fmap_app. unfold load in *.
    rewrite List.filter_app, length_app, Nat2Z.inj_add, IH. clear IH.
    cbn [fmap list_fmap List.filter Nat.add].
    unfold linear at 1.
    rewrite (Z.mod_small (Z.of_nat N mod n) (2 ^ 32))
      by (pose proof (Z.mod_pos_bound (Z.of_nat N) n); lia).
    replace (Z.of_nat (S N)) with (Z.of_nat N + 1) by lia.
    set (x := Z.of_nat N). assert (0 <= x) by lia.
    pose proof (Z.div_mod x n ltac:(lia)) as Hx.
    pose proof (Z.mod_pos_bound x n ltac:(lia)) as Hr.
    destruct (Z.eq_dec (x mod n) (n - 1)) as [Hlast | Hnot].
    + assert ((x + 1) mod n = 0 /\ (x + 1) / n = x / n + 1) as [-> ->].
      { assert (x + 1 = n * (x / n + 1) + 0) as Heq by lia.
        split.
        - symmetry. apply (Z.mod_unique_pos (x + 1) n (x / n + 1) 0); lia.
        - symmetry. apply (Z.div_unique_pos (x + 1) n (x / n + 1) 0); lia. }
      destruct (Z.eqb_spec (x mod n) i), (Z.ltb_spec i (x mod n)), (Z.ltb_spec i 0);
        cbn [length]; lia.
    + assert ((x + 1) mod n = x mod n + 1 /\ (x + 1) / n = x / n) as [-> ->].
      { assert (x + 1 = n * (x / n) + (x mod n + 1)) as Heq by lia.
        split.
        - symmetry. apply (Z.mod_unique_pos (x + 1) n (x / n) (x mod n + 1)); lia.
        - symmetry. apply (Z.div_unique_pos (x + 1) n (x / n) (x mod n + 1)); lia. }
      destruct (Z.eqb_spec (x mod n) i), (Z.ltb_spec i (x mod n)),
        (Z.ltb_spec i (x mod n + 1)); cbn [length]; lia.
Qed.

Lemma legacy_nodes_nil (members : list Member) :
  legacy_nodes members = [] <-> existsb LegacyEnabled members = false.
Proof.
  induction members as [| m rest IH]; [split; reflexivity |].
  cbn [legacy_nodes existsb]. destruct (LegacyEnabled m); cbn [negb orb].
  - split; discriminate.
  - exact IH.
Qed.

Variable revisionarr_Add : list Z -> list Z -> list Z.

(** X13.  With at least one member that has legacy mode enabled, and a
    remote topology that has a vbucket routing, [ComputeTopology] returns,
    without error, a routing over one data node per such member, in the order
    of the snapshot, with one entry per vbucket.  The entry of vbucket [vbId]
    is [vbId] modulo the number of data nodes (converted to [uint32]), so it
    is the index of one of the data nodes; and with at most [2^32] data nodes
    the vbuckets are spread evenly: no data node gets more than one vbucket
    more than another. *)
Theorem ComputeTopology_assignment (lt : Snapshot) (rt : RemoteTopology)
    (routing : RemoteVbucketRouting) :
  RemoteRouting rt = Some routing ->
  existsb LegacyEnabled (Members lt) = true ->
  let nodes := legacy_nodes (Members lt) in
  let n := Z.of_nat (length nodes) in
  exists vbuckets : list Z,
    ComputeTopology revisionarr_Add lt rt
    = Returned (mkTopology
                  (revisionarr_Add (SnapshotRevision lt) (RemoteRevision rt))
                  nodes
                  (Some (mkVbucketRouting (mkDataNode <$> nodes) vbuckets)),
                None) /\
    length vbuckets = Z.to_nat (NumVbuckets routing) /\
    (forall (vbId : nat) (v : Z),
        vbuckets !! vbId = Some v ->
        v = linear n (Z.of_nat vbId) /\
        exists node, nodes !! Z.to_nat v = Some node) /\
    (n <= 2 ^ 32 ->
     forall i j : Z, 0 <= i < n -> 0 <= j < n ->
                     (load i vbuckets <= load j vbuckets + 1)%nat).
Proof.
  intros Hrt Hleg nodes n.
  assert (Hn : 0 < n).
  { subst n nodes. destruct (legacy_nodes (Members lt)) eqn:Hnodes.
    - apply legacy_nodes_nil in Hnodes. congruence.
    - cbn [length]. lia. }
  set (N := Z.to_nat (NumVbuckets routing)).
  exists (linear n <$> (Z.of_nat <$> seq 0 N)).
  split; [| split; [| split]].
  - unfold ComputeTopology. rewrite Hrt. cbv zeta.
    rewrite length_fmap. fold nodes. fold n. fold N.
    rewrite (assign_map n N) by lia. reflexivity.
  - rewrite !length_fmap, length_seq. reflexivity.
  - intros vbId v Hv. rewrite !list_lookup_fmap in Hv.
    destruct (seq 0 N !! vbId) as [k |] eqn:Hk; [| discriminate].
    apply lookup_seq in Hk as [-> _]. cbn in Hv. injection Hv as <-.
    split; [reflexivity |].
    pose proof (linear_lt n (Z.of_nat vbId) Hn ltac:(lia)) as Hlt.
    apply lookup_lt_is_Some_2. subst n. lia.
  - intros Hbig i j Hi Hj.
    pose proof (load_linear n i N ltac:(lia) Hi) as Hli.
    pose proof (load_linear n j N ltac:(lia) Hj) as Hlj.
    destruct (i <? Z.of_nat N mod n), (j <? Z.of_nat N mod n); lia.
Qed.

(** X14.  Without any member that has legacy mode enabled there is no data
    node, and [ComputeTopology] divides by zero: given a vbucket routing with
    at least one vbucket it panics instead of returning; with no vbucket it
    returns an empty routing. *)
Theorem ComputeTopology_no_legacy_member (lt : Snapshot) (rt : RemoteTopology)
    (routing : RemoteVbucketRouting) :
  RemoteRouting rt = Some routing ->
  existsb LegacyEnabled (Members lt) = false ->
  (0 < NumVbuckets routing ->
   ComputeTopology revisionarr_Add lt rt
   = Panicked "runtime error: integer divide by zero") /\
  (NumVbuckets routing <= 0 ->
   ComputeTopology revisionarr_Add lt rt
   = Returned (mkTopology
                 (revisionarr_Add (SnapshotRevision lt) (RemoteRevision rt))
                 [] (Some (mkVbucketRouting [] [])),
               None)).
Proof.
  intros Hrt Hleg. apply legacy_nodes_nil in Hleg.
  unfold ComputeTopology. rewrite Hrt, Hleg. cbv zeta.
  cbn [fmap list_fmap length Z.of_nat]. split; intros HN.
  - destruct (Z.to_nat (NumVbuckets routing)) as [| k] eqn:Hk; [lia |].
    reflexivity.
  - replace (Z.to_nat (NumVbuckets routing)) with 0%nat by lia. reflexivity.
Qed.

End Topology.

(** ** The further properties on concrete hooks *)

Module Examples.
Import Scenario.

#[local] Existing Instance Scenario.libraries.

(** The hook of scenario S3 has no wait: its [Run] calls the slot twice. *)
Lemma Run_holds_slot_without_wait_witness :
  let s := mkRunState "run-1" downstream (S3_hook R1 "limit") in
  existsb waits (Actions (RunHook s)) = false /\
  slot_calls (exec (Run s 0%nat go_nil) (mkWorld fresh [])).2
  = [acquireRunLock 0%nat; releaseRunLock].
Proof.
  intros s.
  assert (Hw : existsb waits (Actions (RunHook s)) = false) by reflexivity.
  split; [exact Hw |].
  apply (Run_holds_slot_without_wait s 0%nat go_nil Hw). reflexivity.
Defined.

(** A counter, a response and a signal: the response is returned and the
    handler is not invoked. *)
Lemma Run_plain_hook_witness :
  let s := mkRunState "run-1" downstream
             (mkHook [HookAction_Counter "n" 1; HookAction_SetResponse R1;
                      HookAction_SignalBarrier "b" true]) in
  forallb plain (Actions (RunHook s)) = true /\
  (exec (Run s 0%nat go_nil) (mkWorld fresh [])).1.1 = (go_AnyPtr R1, None) /\
  handler_calls (exec (Run s 0%nat go_nil) (mkWorld fresh [])).2 = 0%nat.
Proof.
  intros s.
  assert (Hp : forallb plain (Actions (RunHook s)) = true) by reflexivity.
  split; [exact Hp |].
  destruct (Run_plain_hook s 0%nat go_nil Hp) as (_ & H & _).
  exact (H (mkWorld fresh []) eq_refl).
Defined.

(** A counter compared with a request field: the hook fails and the handler
    is not invoked. *)
Lemma RequestField_unimplemented_witness :
  let c := mkCond (ValueRef_CounterValue "n") ComparisonOperator_EQUAL
                  (ValueRef_RequestField "a.b") in
  let s := mkRunState "run-1" downstream
             (mkHook [HookAction_If [c] [HookAction_SetResponse R1] []]) in
  (Left c = ValueRef_RequestField "a.b" \/ Right c = ValueRef_RequestField "a.b") /\
  (exec (Run s 0%nat go_nil) (mkWorld fresh [])).1.1
  = (go_nil, Some (errors_New "unimplemented request field query")) /\
  handler_calls (exec (Run s 0%nat go_nil) (mkWorld fresh [])).2 = 0%nat.
Proof.
  intros c s.
  assert (Hc : Left c = ValueRef_RequestField "a.b"
               \/ Right c = ValueRef_RequestField "a.b") by (right; reflexivity).
  split; [exact Hc |].
  destruct (RequestField_unimplemented s 0%nat go_nil c "a.b" Hc)
    as (_ & _ & _ & H).
  destruct (H [] [HookAction_SetResponse R1] [] [] (mkWorld fresh [])
              eq_refl eq_refl) as [_ Hno].
  split; [reflexivity | exact Hno].
Defined.

(** Below three, or else; and at least three, or else, with the branches
    exchanged. *)
Lemma If_negated_operator_witness :
  let s := mkRunState "run-1" downstream (mkHook []) in
  negate ComparisonOperator_LESS_THAN
  = Some ComparisonOperator_GREATER_THAN_OR_EQUAL /\
  exec (runAction s 0%nat go_nil
          (HookAction_If [mkCond (ValueRef_CounterValue "n")
                                 ComparisonOperator_LESS_THAN
                                 (ValueRef_JsonValue "3")]
                         [HookAction_SetResponse R1] []))
       (mkWorld fresh [])
  = exec (runAction s 0%nat go_nil
            (HookAction_If [mkCond (ValueRef_CounterValue "n")
                                   ComparisonOperator_GREATER_THAN_OR_EQUAL
                                   (ValueRef_JsonValue "3")]
                           [] [HookAction_SetResponse R1]))
         (mkWorld fresh []).
Proof.
  intros s. split; [reflexivity |].
  apply If_negated_operator. reflexivity.
Defined.

(** Three members, two of them with legacy mode, and four vbuckets. *)
Lemma ComputeTopology_assignment_witness :
  let lt := legacytopology.mkSnapshot [1]
              [legacytopology.mkMember "a" "g1" true;
               legacytopology.mkMember "b" "g1" false;
               legacytopology.mkMember "c" "g2" true] in
  let routing := legacytopology.mkRemoteVbucketRouting 4 in
  let rt := legacytopology.mkRemoteTopology [2] (Some routing) in
  existsb legacytopology.LegacyEnabled (legacytopology.Members lt) = true /\
  exists vbuckets : list Z,
    legacytopology.ComputeTopology (fun a b => a ++ b) lt rt
    = legacytopology.Returned
        (legacytopology.mkTopology [1; 2]
           [legacytopology.mkNode "a" "g1"; legacytopology.mkNode "c" "g2"]
           (Some (legacytopology.mkVbucketRouting
                    [legacytopology.mkDataNode (legacytopology.mkNode "a" "g1");
                     legacytopology.mkDataNode (legacytopology.mkNode "c" "g2")]
                    vbuckets)),
         None) /\
    length vbuckets = 4%nat.
Proof.
  intros lt routing rt. split; [reflexivity |].
  destruct (ComputeTopology_assignment (fun a b => a ++ b) lt rt routing
              eq_refl eq_refl) as (vbuckets & Hr & Hl & _).
  exists vbuckets. split; [exact Hr | exact Hl].
Defined.

(** No member with legacy mode and four vbuckets: a panic. *)
Lemma ComputeTopology_no_legacy_member_witness :
  let lt := legacytopology.mkSnapshot [1]
              [legacytopology.mkMember "b" "g1" false] in
  let routing := legacytopology.mkRemoteVbucketRouting 4 in
  let rt := legacytopology.mkRemoteTopology [2] (Some routing) in
  existsb legacytopology.LegacyEnabled (legacytopology.Members lt) = false /\
  legacytopology.ComputeTopology (fun a b => a ++ b) lt rt
  = legacytopology.Panicked "runtime error: integer divide by zero".
Proof.
  intros lt routing rt. split; [reflexivity |].
  apply (ComputeTopology_no_legacy_member (fun a b => a ++ b) lt rt routing
           eq_refl eq_refl).
  reflexivity.
Defined.

End Examples.
